(** * PPOAgent.train: a shallow embedding of the PPO training loop

    Source: reinforcement_learning/algorithms/ppo/ppo.py (class PPOAgent).

    Conventions of the embedding.
    - Tensor entries are real numbers: torch's float32 arithmetic is idealised
      as exact arithmetic on [R].  A value torch would report as NaN because
      of a 0/0 division (the mean of an empty tensor, the standard deviation
      of fewer than two elements, a division by a zero standard deviation) is
      modelled as [None].
    - The entries of the observations are the exception: they come from the
      environment through [torch.from_numpy(s).float()] and may be infinite
      or NaN, and the loop multiplies them by the done mask.  They are
      modelled by [Obs], the reals extended by the two infinities and NaN,
      with the multiplication of IEEE 754.
    - A tensor of shape (k, n_worker, 1) is a [list (list R)]: k rows of
      n_worker entries, the trailing singleton dimension dropped.  An
      observation tensor of shape (t_max + 1, n_worker, *obs_shape) is a
      [list (list (list R))], the payload of one worker flattened.
    - In-place writes [x[i] = v], [x[i].copy_(v)] are list updates
      [<[i:=v]> x]; all reads the loop does are total lookups [x !!! i],
      and the shape lemmas below show that every index the loop produces is
      in range (torch raises outside it).
    - The environment, the network, the random generator, the evaluator and
      the learning-rate scheduler are black boxes: fields of the class
      [Collab].  The calls to the environment, the network, the evaluator
      and the scheduler are recorded in the trace of the [World]; the
      evaluator works on an environment of its own.
    - Console output, timing and the [log_writer] calls have no effect on
      the state of the loop and are left out.
    - Python exceptions are outside the model; [config_ok] names the
      configurations on which the loop itself raises none. *)

From Stdlib Require Import ssreflect Reals Lra Lia List Permutation Ascii String.
From stdpp Require Import base list list_numbers strings pretty.

#[global] Open Scope general_if_scope.
Set Warnings "-rewrite-rw".

#[global] Instance R_inhabited : Inhabited R := populate 0%R.
#[global] Instance R_eq_dec : EqDecision R := Req_dec_T.
#[global] Instance Rle_decision (x y : R) : Decision (x <= y)%R := Rle_dec x y.

(** ** Tensor helpers *)

Module Tensor.

(** shape (n_worker, 1) *)
Abbreviation Row := (list R) (only parsing).

(** python scalar * tensor *)
Definition scale (c : R) (x : Row) : Row := Rmult c <$> x.
Definition tadd (x y : Row) : Row := zip_with Rplus x y.
Definition tsub (x y : Row) : Row := zip_with Rminus x y.
Definition tmul (x y : Row) : Row := zip_with Rmult x y.

Definition Rsum (l : list R) : R := foldr Rplus 0%R l.

(** [x.mean()]: 0/0 on an empty tensor. *)
Definition mean (l : list R) : option R :=
  match l with
  | [] => None
  | _ => Some (Rsum l / INR (length l))%R
  end.

(** [x.std()], torch's default (Bessel's correction): the sum of squared
    deviations divided by [numel - 1], then the square root; 0/0 for a
    single element. *)
Definition std (l : list R) : option R :=
  match mean l with
  | None => None
  | Some m =>
      if decide (length l = 1) then None
      else Some (sqrt (Rsum ((fun x => (x - m) * (x - m))%R <$> l)
                       / INR (length l - 1)))
  end.

(** [x[:-1]] *)
Definition py_init {A} (l : list A) : list A := take (length l - 1) l.

(** index of [x[-1]] *)
Definition py_last {A} (l : list A) : nat := length l - 1.

(** [x.view(-1, ...)] on a contiguous tensor: merge the two leading
    dimensions, row-major. *)
Definition view_flat {A} (x : list (list A)) : list A := concat x.

(** [x[indices]] with a list of indices. *)
Definition gather {A} `{Inhabited A} (x : list A) (indices : list nat) : list A :=
  (fun i => x !!! i) <$> indices.

(** [x.clamp(lo, hi)] *)
Definition clamp (lo hi x : R) : R := Rmin (Rmax x lo) hi.

(** [F.softmax(row, dim=-1)] and [F.log_softmax(row, dim=-1)] *)
Definition softmax (row : list R) : list R :=
  (fun x => exp x / Rsum (exp <$> row))%R <$> row.
Definition log_softmax (row : list R) : list R :=
  (fun x => x - ln (Rsum (exp <$> row)))%R <$> row.

End Tensor.
Import Tensor.

(** ** The agent, its buffers and its collaborators *)

(** [PPOAgent.__init__] ([use_cuda] only selects the device). *)
Record Agent := {
  t_max : nat;
  n_worker : nat;
  gamma : R;
  gae_lambda : R;
  ppo_epoch : nat;
  epsilon : R;
  batch_size : nat
}.

(** An entry of an observation tensor, a float32: a finite value, idealised
    as a real number, an infinity with its sign, or NaN. *)
Inductive Obs :=
| ObsFin (x : R)
| ObsInf (negative : bool)
| ObsNaN.

#[global] Instance Obs_inhabited : Inhabited Obs := populate (ObsFin 0).

(** [x * m] for an observation entry [x] and a finite float [m]: the
    product of the reals on finite values; an infinity times zero is NaN,
    times a positive or negative value an infinity of the product's sign;
    NaN times anything is NaN. *)
Definition obs_mul (x : Obs) (m : R) : Obs :=
  match x with
  | ObsFin v => ObsFin (v * m)
  | ObsInf negative =>
      if decide (m = 0%R) then ObsNaN
      else ObsInf (if Rlt_dec m 0 then negb negative else negative)
  | ObsNaN => ObsNaN
  end.


(** One worker's observation for one observation space, and the
  observations of all workers for one space. *)
Abbreviation ObsData := (list Obs) (only parsing).
Abbreviation ObsSlot := (list (list Obs)) (only parsing).

(** The tensors allocated at the top of [train]. *)
Record Buffers := {
  observations : list (list ObsSlot);
  rewards : list Row;
  value_predictions : list Row;
  old_log_probs : list Row;
  returns : list Row;
  actions : list (list nat);
  masks : list Row;
  episode_rewards : Row;
  final_rewards : Row;
  steps : nat
}.

(** The three losses handed to [model.update]. *)
Record Losses := {
  action_loss : option R;
  value_loss : option R;
  dist_entropy : option R
}.

(** The file names [store_model] is called with: ['best_model.pt'] and
    ['model_update_{i}.pt']. *)
Inductive ModelFile :=
| BestModel
| ModelUpdate (i : nat).

Inductive Event :=
| EvTrainMode
| EvEvalMode
| EvReset
| EvForward (inputs : list ObsSlot)
| EvEnvStep (np_actions : list nat)
| EvForwardValue (inputs : list ObsSlot)
| EvUpdate (l : Losses)
| EvEvaluate (k : nat)
| EvSchedulerStep (score : R)
| EvStoreModel (name : ModelFile).

(** The external collaborators of the training loop. *)
Class Collab := {
  Env : Type;
  Net : Type;
  Rng : Type;
  Evaluator : Type;
  Scheduler : Type;
  Stats : Type;
  (** flattened size of each observation space *)
  env_obs_sizes : Env -> list nat;
  env_reset : Env -> list ObsSlot * Env;
  env_step : Env -> list nat -> (list ObsSlot * Row * list bool) * Env;
  (** [model(inputs)]: policy logits and value, one row per sample *)
  net_forward : Net -> list ObsSlot -> list (list R) * Row;
  net_forward_value : Net -> list ObsSlot -> Row;
  net_update : Net -> Losses -> Net;
  (** [model.optimizer.param_groups[0]['lr']] *)
  net_lr : Net -> R;
  (** [probabilities.multinomial()] *)
  multinomial : Rng -> list (list R) -> list nat * Rng;
  (** [torch.randperm(n)] *)
  randperm : Rng -> nat -> list nat * Rng;
  evaluate : Evaluator -> Net -> Rng -> nat -> Stats * Evaluator * Rng;
  stats_get : Stats -> string -> R;
  scheduler_step : Scheduler -> R -> Net -> Scheduler * Net
}.

Section PPO.
Context {C : Collab}.

Record World := {
  w_env : Env;
  w_net : Net;
  w_rng : Rng;
  w_trace : list Event
}.

Definition emit (e : Event) (w : World) : World :=
  {| w_env := w_env w; w_net := w_net w; w_rng := w_rng w;
     w_trace := w_trace w ++ [e] |}.

(** *** The helper methods of the agent *)

(** [_get_log_probs]: [log_softmax(policy).gather(1, actions)] *)
Definition get_log_probs (policy : list (list R)) (acts : list nat) : Row :=
  zip_with (fun row a => log_softmax row !!! a) policy acts.

(** [_calc_entropy]: [-(log_probs * probabilities).sum(-1).mean()] *)
Definition calc_entropy (policy : list (list R)) : option R :=
  Ropp <$> mean ((fun row => Rsum (tmul (log_softmax row) (softmax row))) <$> policy).

(** [_sample_action] *)
Definition sample_action (rng : Rng) (policy : list (list R)) : list nat * Rng :=
  multinomial rng (softmax <$> policy).

(** *** Rollout, lines 88-133 *)

(** [np_masks]: 0.0 where the episode is done, 1.0 elsewhere. *)
Definition np_masks (done : list bool) : Row :=
  (fun d : bool => if d then 0%R else 1%R) <$> done.

(** [state_tensor_list[j] *= pt_masks]: the mask is reshaped to
    (n_worker, 1, ..., 1) and broadcast over each worker's payload. *)
Definition mask_state (m : Row) (s : ObsSlot) : ObsSlot :=
  zip_with (fun (o : ObsData) (mk : R) => (fun x => obs_mul x mk) <$> o) s m.

(** [for j, obs in enumerate(state_tensor_list):
       observations[j][step + 1].copy_(obs)] *)
Definition store_obs (slot : nat) (state : list ObsSlot)
    (obs : list (list ObsSlot)) : list (list ObsSlot) :=
  foldl (fun o (js : nat * ObsSlot) => alter (fun t => <[slot := js.2]> t) js.1 o)
        obs (imap pair state).

(** What one rollout step obtains from the network, the sampler and the
    environment. *)
Record StepData := {
  sd_inputs : list ObsSlot;
  sd_value : Row;
  sd_actions : list nat;
  sd_log_probs : Row;
  sd_state : list ObsSlot;
  sd_reward : Row;
  sd_done : list bool;
  sd_rng : Rng;
  sd_env : Env
}.

Definition step_data (b : Buffers) (w : World) (step : nat) : StepData :=
  let inputs := (fun obs : list ObsSlot => obs !!! step) <$> observations b in
  let pv := net_forward (w_net w) inputs in
  let ar := sample_action (w_rng w) pv.1 in
  let r := env_step (w_env w) ar.1 in
  {| sd_inputs := inputs;
     sd_value := pv.2;
     sd_actions := ar.1;
     sd_log_probs := get_log_probs pv.1 ar.1;
     sd_state := r.1.1.1;
     sd_reward := r.1.1.2;
     sd_done := r.1.2;
     sd_rng := ar.2;
     sd_env := r.2 |}.

Definition rollout_step (bw : Buffers * World) (step : nat) : Buffers * World :=
  let b := bw.1 in
  let w := bw.2 in
  let d := step_data b w step in
  let episode_rewards1 := tadd (episode_rewards b) (sd_reward d) in
  let mk := np_masks (sd_done d) in
  let state_tensor_list := mask_state mk <$> sd_state d in
  let final_rewards1 := tadd (tmul (final_rewards b) mk)
                             (tmul ((fun x => 1 - x)%R <$> mk) episode_rewards1) in
  ({| observations := store_obs (S step) state_tensor_list (observations b);
      rewards := <[step := sd_reward d]> (rewards b);
      value_predictions := <[step := sd_value d]> (value_predictions b);
      old_log_probs := <[step := sd_log_probs d]> (old_log_probs b);
      returns := returns b;
      actions := <[step := sd_actions d]> (actions b);
      masks := <[step := mk]> (masks b);
      episode_rewards := tmul episode_rewards1 mk;
      final_rewards := final_rewards1;
      steps := S (steps b) |},
   {| w_env := sd_env d;
      w_net := w_net w;
      w_rng := sd_rng d;
      w_trace := w_trace w ++ [EvForward (sd_inputs d); EvEnvStep (sd_actions d)] |}).

(** [for step in range(self.t_max)] *)
Definition rollout (a : Agent) (bw : Buffers * World) : Buffers * World :=
  foldl rollout_step bw (seq 0 (t_max a)).


(** *** Returns, lines 135-142 *)

Definition set_value_predictions (vp : list Row) (b : Buffers) : Buffers :=
  {| observations := observations b; rewards := rewards b;
     value_predictions := vp; old_log_probs := old_log_probs b;
     returns := returns b; actions := actions b; masks := masks b;
     episode_rewards := episode_rewards b; final_rewards := final_rewards b;
     steps := steps b |}.

Definition set_returns (r : list Row) (b : Buffers) : Buffers :=
  {| observations := observations b; rewards := rewards b;
     value_predictions := value_predictions b; old_log_probs := old_log_probs b;
     returns := r; actions := actions b; masks := masks b;
     episode_rewards := episode_rewards b; final_rewards := final_rewards b;
     steps := steps b |}.

Definition set_observations (o : list (list ObsSlot)) (b : Buffers) : Buffers :=
  {| observations := o; rewards := rewards b;
     value_predictions := value_predictions b; old_log_probs := old_log_probs b;
     returns := returns b; actions := actions b; masks := masks b;
     episode_rewards := episode_rewards b; final_rewards := final_rewards b;
     steps := steps b |}.

(** The variable [gae]: the python integer 0 before the first pass of the
    loop, a tensor of shape (n_worker, 1) after it. *)
Inductive Gae :=
| GaeZero
| GaeTensor (g : Row).

(** [x * gae] for a tensor [x] *)
Definition mul_gae (x : Row) (g : Gae) : Row :=
  match g with
  | GaeZero => (fun v => v * 0)%R <$> x
  | GaeTensor g => tmul x g
  end.

(** One pass of the loop of lines 138-142; [st] is [(gae, returns)]. *)
Definition gae_step (a : Agent) (b : Buffers) (st : Gae * list Row) (step : nat)
    : Gae * list Row :=
  let delta :=
    tsub (tadd (rewards b !!! step)
               (tmul (scale (gamma a) (value_predictions b !!! (step + 1)))
                     (masks b !!! step)))
         (value_predictions b !!! step) in
  let gae :=
    tadd delta (mul_gae (scale (gamma a * gae_lambda a) (masks b !!! step)) st.1) in
  (GaeTensor gae, <[step := tadd gae (value_predictions b !!! step)]> st.2).

Definition calc_returns (a : Agent) (bw : Buffers * World) : Buffers * World :=
  let b := bw.1 in
  let w := bw.2 in
  let inputs := (fun obs : list ObsSlot => obs !!! py_last obs) <$> observations b in
  let b1 :=
    set_value_predictions
      (<[py_last (value_predictions b) := net_forward_value (w_net w) inputs]>
         (value_predictions b)) b in
  let r := foldl (gae_step a b1) (GaeZero, returns b1) (reverse (seq 0 (t_max a))) in
  (set_returns r.2 b1, emit (EvForwardValue inputs) w).

(** *** Advantages, lines 144-145 *)

(** [returns[:-1] - value_predictions[:-1]] *)
Definition raw_advantages (b : Buffers) : list Row :=
  zip_with tsub (py_init (returns b)) (py_init (value_predictions b)).

(** [(advantages - advantages.mean()) / advantages.std()].  [None] is the
    tensor whose entries are all NaN: the mean or the standard deviation is
    itself 0/0, or the standard deviation is 0 (every entry then equals the
    mean, lemma [std_zero_all_mean], and each quotient is 0/0). *)
Definition normalize (adv : list Row) : option (list Row) :=
  match mean (view_flat adv), std (view_flat adv) with
  | Some m, Some s =>
      if decide (s = 0%R) then None
      else Some ((fun row : Row => (fun x => (x - m) / s)%R <$> row) <$> adv)
  | _, _ => None
  end.

(** *** The samplers of torch.utils.data.sampler *)

(** [SubsetRandomSampler(indices)]: yields [indices[i]] for [i] in
    [torch.randperm(len(indices))]. *)
Definition subset_random_sampler (rng : Rng) (indices : list nat) : list nat * Rng :=
  let pr := randperm rng (length indices) in
  ((fun i => indices !!! i) <$> pr.1, pr.2).

(** [BatchSampler(sampler, batch_size, drop_last)]: append to [batch], yield
    it when its length reaches [batch_size]; at the end yield what is left
    when it is non-empty and [drop_last] is unset. *)
Fixpoint batch_sampler (bsize : nat) (drop_last : bool) (batch : list nat)
    (sampler : list nat) : list (list nat) :=
  match sampler with
  | [] => if (0 <? length batch)%nat && negb drop_last then [batch] else []
  | idx :: rest =>
      let batch1 := batch ++ [idx] in
      if (length batch1 =? bsize)%nat
      then batch1 :: batch_sampler bsize drop_last [] rest
      else batch_sampler bsize drop_last batch1 rest
  end.

(** *** One minibatch, lines 151-174 *)

Definition set_rng (r : Rng) (w : World) : World :=
  {| w_env := w_env w; w_net := w_net w; w_rng := r; w_trace := w_trace w |}.

Definition set_net (n : Net) (w : World) : World :=
  {| w_env := w_env w; w_net := n; w_rng := w_rng w; w_trace := w_trace w |}.

Definition states_batch (b : Buffers) (indices : list nat) : list ObsSlot :=
  (fun obs : list ObsSlot => gather (view_flat (py_init obs)) indices)
    <$> observations b.

(** [-torch.min(surr1, surr2).mean()] *)
Definition surrogate_loss (eps : R) (ratio advantage_target : Row) : option R :=
  let surr1 := tmul ratio advantage_target in
  let surr2 := tmul (clamp (1 - eps) (1 + eps) <$> ratio) advantage_target in
  Ropp <$> mean (zip_with Rmin surr1 surr2).

Definition minibatch_losses (a : Agent) (b : Buffers) (advantages : option (list Row))
    (indices : list nat) (net : Net) : Losses :=
  let actions_batch := gather (view_flat (actions b)) indices in
  let return_batch := gather (view_flat (py_init (returns b))) indices in
  let old_log_probs_batch := gather (view_flat (old_log_probs b)) indices in
  let pv := net_forward net (states_batch b indices) in
  let action_log_probabilities := get_log_probs pv.1 actions_batch in
  let ratio := exp <$> tsub action_log_probabilities old_log_probs_batch in
  {| action_loss :=
       adv ← advantages;
       surrogate_loss (epsilon a) ratio (gather (view_flat adv) indices);
     value_loss := mean ((fun x => x * x)%R <$> tsub return_batch pv.2);
     dist_entropy := calc_entropy pv.1 |}.

Definition minibatch_update (a : Agent) (b : Buffers) (advantages : option (list Row))
    (w : World) (indices : list nat) : World :=
  let l := minibatch_losses a b advantages indices (w_net w) in
  {| w_env := w_env w;
     w_net := net_update (w_net w) l;
     w_rng := w_rng w;
     w_trace := w_trace w ++ [EvForward (states_batch b indices); EvUpdate l] |}.

(** *** The epochs, lines 146-150 *)

Definition epoch_batches (a : Agent) (rng : Rng) : list (list nat) * Rng :=
  let s := subset_random_sampler rng (seq 0 (n_worker a * t_max a)) in
  (batch_sampler (batch_size a * n_worker a) false [] s.1, s.2).

Definition ppo_epoch_run (a : Agent) (b : Buffers) (advantages : option (list Row))
    (w : World) : World :=
  let br := epoch_batches a (w_rng w) in
  foldl (minibatch_update a b advantages) (set_rng br.2 w) br.1.

Definition ppo_update (a : Agent) (b : Buffers) (advantages : option (list Row))
    (w : World) : World :=
  Nat.iter (ppo_epoch a) (ppo_epoch_run a b advantages) w.

(** *** Saving the latest state, lines 176-178 *)

Definition save_latest_state (b : Buffers) : Buffers :=
  set_observations
    ((fun obs : list ObsSlot => <[0 := obs !!! py_last obs]> obs) <$> observations b) b.

(** *** Evaluation, scheduling and dumps, lines 196-218 *)

(** The arguments of [train] the loop depends on.  [log_interval] is only
    read by the logging, which is left out; it is kept because python
    raises on [i % log_interval] when it is zero. *)
Record TrainArgs := {
  max_updates : nat;
  log_interval : nat;
  eval_interval : nat;
  score_name : option string;
  high_is_better : bool;
  dump_interval : nat
}.

(** [best_score] is [None] while it still holds its initial value, minus
    infinity when high is better and plus infinity otherwise. *)
Record LoopState := {
  ls_buffers : Buffers;
  ls_world : World;
  ls_best_score : option R;
  ls_evaluator : option Evaluator;
  ls_scheduler : option Scheduler
}.

Definition improvement (high : bool) (score : R) (best : option R) : bool :=
  match best with
  | None => true
  | Some bst => if high then bool_decide (bst <= score)%R else bool_decide (score <= bst)%R
  end.

(** Lines 208-214. *)
Definition record_best (args : TrainArgs) (score : R) (st : LoopState) : LoopState :=
  if improvement (high_is_better args) score (ls_best_score st)
  then {| ls_buffers := ls_buffers st;
          ls_world := emit (EvStoreModel BestModel) (ls_world st);
          ls_best_score := Some score;
          ls_evaluator := ls_evaluator st;
          ls_scheduler := ls_scheduler st |}
  else st.

(** Lines 196-214; the boolean is set when the loop breaks. *)
Definition evaluation (args : TrainArgs) (i : nat) (st : LoopState) : LoopState * bool :=
  match ls_evaluator st with
  | None => (st, false)
  | Some ev =>
      if decide (i mod eval_interval args = 0) then
        let w := ls_world st in
        let r := evaluate ev (w_net w) (w_rng w) (i / eval_interval args) in
        let w1 :=
          {| w_env := w_env w; w_net := w_net w; w_rng := r.2;
             w_trace := w_trace w ++
               [EvEvalMode; EvEvaluate (i / eval_interval args); EvTrainMode] |} in
        let st1 :=
          {| ls_buffers := ls_buffers st; ls_world := w1;
             ls_best_score := ls_best_score st;
             ls_evaluator := Some r.1.2; ls_scheduler := ls_scheduler st |} in
        match score_name args with
        | None => (st1, false)
        | Some name =>
            let score := stats_get r.1.1 name in
            match ls_scheduler st with
            | None => (record_best args score st1, false)
            | Some sch =>
                let sr := scheduler_step sch score (w_net w1) in
                let st2 :=
                  {| ls_buffers := ls_buffers st;
                     ls_world := emit (EvSchedulerStep score) (set_net sr.2 w1);
                     ls_best_score := ls_best_score st;
                     ls_evaluator := Some r.1.2; ls_scheduler := Some sr.1 |} in
                if decide (net_lr sr.2 = 0%R) then (st2, true)
                else (record_best args score st2, false)
            end
        end
      else (st, false)
  end.

(** Lines 216-218. *)
Definition dump (args : TrainArgs) (i : nat) (st : LoopState) : LoopState :=
  if decide (i mod dump_interval args = 0)
  then {| ls_buffers := ls_buffers st;
          ls_world := emit (EvStoreModel (ModelUpdate i)) (ls_world st);
          ls_best_score := ls_best_score st;
          ls_evaluator := ls_evaluator st;
          ls_scheduler := ls_scheduler st |}
  else st.

(** *** The loop, lines 78-218 *)

(** The body of [for i in range(1, max_updates+1)] up to the evaluation. *)
Definition update_phase (a : Agent) (st : LoopState) : LoopState :=
  let bw1 := rollout a (ls_buffers st, ls_world st) in
  let bw2 := calc_returns a bw1 in
  let advantages := normalize (raw_advantages bw2.1) in
  let w3 := ppo_update a bw2.1 advantages bw2.2 in
  {| ls_buffers := save_latest_state bw2.1;
     ls_world := w3;
     ls_best_score := ls_best_score st;
     ls_evaluator := ls_evaluator st;
     ls_scheduler := ls_scheduler st |}.

Definition train_iteration (a : Agent) (args : TrainArgs) (i : nat) (st : LoopState)
    : LoopState * bool :=
  let r := evaluation args i (update_phase a st) in
  if r.2 then r else (dump args i r.1, false).

(** The result carries the value of [i] at which the loop broke, if it did. *)
Fixpoint train_loop (a : Agent) (args : TrainArgs) (updates : list nat) (st : LoopState)
    : LoopState * option nat :=
  match updates with
  | [] => (st, None)
  | i :: rest =>
      let r := train_iteration a args i st in
      if r.2 then (r.1, Some i) else train_loop a args rest r.1
  end.

(** *** [train], lines 32-76 *)

Definition zeros (k n : nat) : list Row := replicate k (replicate n 0%R).

(** Lines 38-59.  [actions] is allocated without being initialised; every
    slot is written by the rollout before it is read, zeros stand for the
    initial content. *)

Definition init_buffers (a : Agent) (sizes : list nat) (first_observations : list ObsSlot)
    : Buffers :=
  {| observations :=
       store_obs 0 first_observations
         ((fun sz => replicate (t_max a + 1) (replicate (n_worker a) (replicate sz (ObsFin 0))))
            <$> sizes);
     rewards := zeros (t_max a) (n_worker a);
     value_predictions := zeros (t_max a + 1) (n_worker a);
     old_log_probs := zeros (t_max a + 1) (n_worker a);
     returns := zeros (t_max a + 1) (n_worker a);
     actions := replicate (t_max a) (replicate (n_worker a) 0%nat);
     masks := zeros (t_max a) (n_worker a);
     episode_rewards := replicate (n_worker a) 0%R;
     final_rewards := replicate (n_worker a) 0%R;
     steps := 0 |}.

(** Lines 36-45: training mode, allocation, [env.reset]. *)
Definition train_init (a : Agent) (evaluator : option Evaluator)
    (lr_scheduler : option Scheduler) (w : World) : LoopState :=
  let r := env_reset (w_env w) in
  {| ls_buffers := init_buffers a (env_obs_sizes (w_env w)) r.1;
     ls_world := {| w_env := r.2; w_net := w_net w; w_rng := w_rng w;
                    w_trace := w_trace w ++ [EvTrainMode; EvReset] |};
     ls_best_score := None;
     ls_evaluator := evaluator;
     ls_scheduler := lr_scheduler |}.

Definition train (a : Agent) (args : TrainArgs) (evaluator : option Evaluator)
    (lr_scheduler : option Scheduler) (w : World) : LoopState * option nat :=
  train_loop a args (seq 1 (max_updates args)) (train_init a evaluator lr_scheduler w).

End PPO.

(** ** Vocabulary of the specification *)

(** The entry of worker [k] at step [t] of a tensor of shape
    (steps, n_worker, 1). *)
Definition entry {A} `{Inhabited A} (x : list (list A)) (t k : nat) : A :=
  (x !!! t) !!! k.

(** [x] has [k] rows of [n] entries. *)
Definition shaped {A} (k n : nat) (x : list (list A)) : Prop :=
  length x = k /\ Forall (fun r => length r = n) x.

(** The shapes [train] allocates its tensors with. *)
Record buffers_shaped (a : Agent) (b : Buffers) : Prop := {
  bs_observations : Forall (shaped (t_max a + 1) (n_worker a)) (observations b);
  bs_rewards : shaped (t_max a) (n_worker a) (rewards b);
  bs_value_predictions : shaped (t_max a + 1) (n_worker a) (value_predictions b);
  bs_old_log_probs : shaped (t_max a + 1) (n_worker a) (old_log_probs b);
  bs_returns : shaped (t_max a + 1) (n_worker a) (returns b);
  bs_actions : shaped (t_max a) (n_worker a) (actions b);
  bs_masks : shaped (t_max a) (n_worker a) (masks b)
}.

(** The generalized advantage estimate of one worker, as the backward
    recursion states it: [gae_rec n t] is the estimate at step [t] when [n]
    steps remain up to the end of the rollout, from rewards [r], masks [m]
    and value predictions [v] indexed by the step. *)
Fixpoint gae_rec (g lam : R) (r m v : nat -> R) (n t : nat) : R :=
  match n with
  | 0 => 0%R
  | S n' =>
      ((r t + g * v (t + 1)%nat * m t - v t)
       + g * lam * m t * gae_rec g lam r m v n' (t + 1)%nat)%R
  end.

Definition gae_at (a : Agent) (b : Buffers) (k t : nat) : R :=
  gae_rec (gamma a) (gae_lambda a)
    (fun s => entry (rewards b) s k) (fun s => entry (masks b) s k)
    (fun s => entry (value_predictions b) s k) (t_max a - t) t.

(** The value of [gae] for worker [k]. *)
Definition gae_value (g : Gae) (k : nat) : option R :=
  match g with
  | GaeZero => Some 0%R
  | GaeTensor row => row !! k
  end.

(** The clipped surrogate of one sample: current log-probability [lp],
    stored log-probability [old], normalized advantage [adv]. *)
Definition clipped_surrogate (eps lp old adv : R) : R :=
  Rmin (exp (lp - old) * adv) (clamp (1 - eps) (1 + eps) (exp (lp - old)) * adv).

(** [torch.randperm(n)] returns a permutation of [0 .. n-1]. *)
Definition randperm_spec `{Collab} : Prop :=
  forall rng n, Permutation (randperm rng n).1 (seq 0 n).

(** The batches partition [0 .. n-1] into chunks of [bsize], the last one
    possibly shorter. *)
Definition partitions (bsize n : nat) (batches : list (list nat)) : Prop :=
  Permutation (concat batches) (seq 0 n) /\
  length batches = (n + bsize - 1) / bsize /\
  forall j c, batches !! j = Some c ->
    (0 < length c <= bsize)%nat /\ (S j < length batches -> length c = bsize).

Definition is_update (e : Event) : bool :=
  match e with EvUpdate _ => true | _ => false end.
Definition is_env_step (e : Event) : bool :=
  match e with EvEnvStep _ => true | _ => false end.
Definition is_reset (e : Event) : bool :=
  match e with EvReset => true | _ => false end.
Definition is_forward_value (e : Event) : bool :=
  match e with EvForwardValue _ => true | _ => false end.

Definition count (p : Event -> bool) (tr : list Event) : nat :=
  length (filter (fun e => p e = true) tr).

(** The configurations on which python runs the loop without raising: no
    interval is zero ([i % 0]), the sampler gets a positive batch size, and
    every update runs at least one minibatch (the logging reads the losses
    of the last one). *)
Definition config_ok (a : Agent) (args : TrainArgs) : Prop :=
  0 < t_max a /\ 0 < n_worker a /\ 0 < ppo_epoch a /\ 0 < batch_size a /\
  0 < log_interval args /\ 0 < eval_interval args /\ 0 < dump_interval args.

(** A stretch of the trace without [env.reset], [env.step], [model.update]
    and [model.forward_value]. *)
Definition quiet (tr : list Event) : Prop :=
  count is_reset tr = 0 /\ count is_env_step tr = 0 /\
  count is_update tr = 0 /\ count is_forward_value tr = 0.

(** An optional argument of [train] is not [None]. *)
Definition supplied {A} (x : option A) : bool :=
  match x with Some _ => true | None => false end.

(** The calls one epoch makes for the minibatches [batches]: a forward pass
    on the gathered states, then [model.update] with the losses [ls]. *)
Definition minibatch_trace `{Collab} (b : Buffers) (batches : list (list nat))
    (ls : list Losses) : list Event :=
  concat (zip_with (fun idx l => [EvForward (states_batch b idx); EvUpdate l]) batches ls).

(** The state of the rollout before step [s], and what step [s] obtains. *)
Definition rollout_prefix `{Collab} (bw : Buffers * World) (s : nat) : Buffers * World :=
  foldl rollout_step bw (seq 0 s).

Definition rollout_data `{Collab} (bw : Buffers * World) (s : nat) : StepData :=
  step_data (rollout_prefix bw s).1 (rollout_prefix bw s).2 s.

(** The calls of a rollout of [n] steps: per step one forward pass and one
    [env.step]. *)
Definition rollout_trace `{Collab} (bw : Buffers * World) (n : nat) : list Event :=
  s ← seq 0 n;
  [EvForward (sd_inputs (rollout_data bw s)); EvEnvStep (sd_actions (rollout_data bw s))].

(** The time dimension of every tensor is the one [train] allocates. *)
Record buffers_allocated (a : Agent) (b : Buffers) : Prop := {
  ba_observations : Forall (fun o => length o = t_max a + 1) (observations b);
  ba_rewards : length (rewards b) = t_max a;
  ba_value_predictions : length (value_predictions b) = t_max a + 1;
  ba_old_log_probs : length (old_log_probs b) = t_max a + 1;
  ba_returns : length (returns b) = t_max a + 1;
  ba_actions : length (actions b) = t_max a;
  ba_masks : length (masks b) = t_max a
}.

(** The buffers [b] hold at step [s] what the rollout step [d] obtained:
    the masked next observations in slot [s + 1], and the actions,
    log-probabilities, values, rewards and masks in slot [s]. *)
Definition stores_step `{Collab} (b : Buffers) (s : nat) (d : StepData) : Prop :=
  rewards b !! s = Some (sd_reward d) /\
  value_predictions b !! s = Some (sd_value d) /\
  old_log_probs b !! s = Some (sd_log_probs d) /\
  actions b !! s = Some (sd_actions d) /\
  masks b !! s = Some (np_masks (sd_done d)) /\
  forall j st, sd_state d !! j = Some st -> is_Some (observations b !! j) ->
    observations b !! j ≫= (.!! (S s)) = Some (mask_state (np_masks (sd_done d)) st).

(** What the loop expects of its collaborators when it runs [n_worker]
    workers: the environment answers with one entry per worker, the network
    with one row per input row, the sampler with one action per row. *)
Record collab_shaped `{Collab} (a : Agent) : Prop := {
  cs_spaces : forall e, env_obs_sizes e <> [];
  cs_reset : forall e, Forall (fun o => length o = n_worker a) (env_reset e).1;
  cs_step : forall e acts,
    Forall (fun o => length o = n_worker a) (env_step e acts).1.1.1 /\
    length (env_step e acts).1.1.2 = n_worker a /\
    length (env_step e acts).1.2 = n_worker a;
  cs_forward : forall net inputs k,
    inputs <> [] -> Forall (fun o => length o = k) inputs ->
    length (net_forward net inputs).1 = k /\ length (net_forward net inputs).2 = k;
  cs_forward_value : forall net inputs k,
    inputs <> [] -> Forall (fun o => length o = k) inputs ->
    length (net_forward_value net inputs) = k;
  cs_multinomial : forall rng probs, length (multinomial rng probs).1 = length probs
}.

(** ** A small concrete instance

    Two workers, one observation space of size one, a network that answers
    zero logits over two actions, a sampler that always picks action 0, an
    identity [randperm], and a scheduler that sets the learning rate (the
    state of the network) to zero. *)
Module Toy.

Definition collab : Collab := {|
  Env := nat;
  Net := R;
  Rng := unit;
  Evaluator := unit;
  Scheduler := unit;
  Stats := unit;
  env_obs_sizes := fun _ => [1];
  env_reset := fun e => ([[[ObsFin 1]; [ObsFin 2]]], e);
  env_step := fun e _ => ([[[ObsFin 3]; [ObsFin 4]]], [1%R; 0%R], [false; true], S e);
  net_forward := fun _ inputs =>
    let k := length (inputs !!! 0) in (replicate k [0%R; 0%R], replicate k 0%R);
  net_forward_value := fun _ inputs => replicate (length (inputs !!! 0)) 0%R;
  net_update := fun n _ => n;
  net_lr := fun n => n;
  multinomial := fun rng probs => ((fun _ => 0) <$> probs, rng);
  randperm := fun rng n => (seq 0 n, rng);
  evaluate := fun ev _ rng _ => (tt, ev, rng);
  stats_get := fun _ _ => 0%R;
  scheduler_step := fun s _ _ => (s, 0%R)
|}.

Definition agent : Agent :=
  {| t_max := 2; n_worker := 2; gamma := 1; gae_lambda := 1; ppo_epoch := 2;
     epsilon := 1; batch_size := 1 |}.

Definition world : @World collab := @Build_World collab 0 1%R tt [].

Definition args : TrainArgs :=
  {| max_updates := 3; log_interval := 100; eval_interval := 2;
     score_name := Some "score"%string; high_is_better := false;
     dump_interval := 5 |}.

Definition evaluator : option (@Evaluator collab) := Some tt.
Definition lr_scheduler : option (@Scheduler collab) := Some tt.

Definition state : @LoopState collab := @train_init collab agent evaluator lr_scheduler world.

(** Buffers as they may stand after the returns were computed. *)
Definition buffers : Buffers :=
  {| observations := [[[[ObsFin 1]; [ObsFin 2]]; [[ObsFin 3]; [ObsFin 4]];
                       [[ObsFin 5]; [ObsFin 6]]]];
     rewards := [[1; 0]; [0; 1]]%R;
     value_predictions := [[0; 0]; [0; 0]; [0; 0]]%R;
     old_log_probs := [[0; 0]; [0; 0]; [0; 0]]%R;
     returns := [[1; 2]; [3; 4]; [0; 0]]%R;
     actions := [[0; 1]; [1; 0]];
     masks := [[1; 1]; [1; 0]]%R;
     episode_rewards := [0; 0]%R;
     final_rewards := [0; 0]%R;
     steps := 2 |}.

End Toy.

(** The same instance with an environment whose second worker returns an
    infinite observation entry together with its done flag. *)
Module ToyInf.

Definition collab : Collab := {|
  Env := nat;
  Net := R;
  Rng := unit;
  Evaluator := unit;
  Scheduler := unit;
  Stats := unit;
  env_obs_sizes := fun _ => [1];
  env_reset := fun e => ([[[ObsFin 1]; [ObsFin 2]]], e);
  env_step := fun e _ => ([[[ObsFin 3]; [ObsInf false]]], [1%R; 0%R], [false; true], S e);
  net_forward := fun _ inputs =>
    let k := length (inputs !!! 0) in (replicate k [0%R; 0%R], replicate k 0%R);
  net_forward_value := fun _ inputs => replicate (length (inputs !!! 0)) 0%R;
  net_update := fun n _ => n;
  net_lr := fun n => n;
  multinomial := fun rng probs => ((fun _ => 0) <$> probs, rng);
  randperm := fun rng n => (seq 0 n, rng);
  evaluate := fun ev _ rng _ => (tt, ev, rng);
  stats_get := fun _ _ => 0%R;
  scheduler_step := fun s _ _ => (s, 0%R)
|}.

Definition world : @World collab := @Build_World collab 0 1%R tt [].

Definition state : @LoopState collab := @train_init collab Toy.agent None None world.

End ToyInf.

(** ** The remaining methods of the agent *)

(** [b.startswith('/')] and [a.endswith('/')] *)
Definition starts_with_sep (s : string) : bool :=
  match s with
  | String c _ => bool_decide (c = "/"%char)
  | EmptyString => false
  end.

Fixpoint ends_with_sep (s : string) : bool :=
  match s with
  | EmptyString => false
  | String c EmptyString => bool_decide (c = "/"%char)
  | String _ s' => ends_with_sep s'
  end.

(** [os.path.join(a, b)] of python's posixpath: [b] alone when it is
    absolute, [a + b] when [a] is empty or ends with the separator,
    [a + '/' + b] otherwise. *)
Definition path_join (a b : string) : string :=
  if starts_with_sep b then b
  else if bool_decide (a = EmptyString) || ends_with_sep a then a +:+ b
  else a +:+ "/" +:+ b.

(** [store_model], lines 247-254: the path handed to [model.save_network]. *)
Definition store_model (name : string) (store_dir : option string) : string :=
  match store_dir with
  | Some d => path_join d name
  | None => name
  end.

(** The names of lines 213 and 218: ['best_model.pt'] and
    ['model_update_{}.pt'.format(i)]. *)
Definition file_name (f : ModelFile) : string :=
  match f with
  | BestModel => "best_model.pt"
  | ModelUpdate i => "model_update_" +:+ pretty i +:+ ".pt"
  end.

(** ** Projections of the trace *)

(** The evaluation numbers the evaluator was called with, in order. *)
Definition evaluations (tr : list Event) : list nat :=
  omap (fun e => match e with EvEvaluate k => Some k | _ => None end) tr.

(** The updates [i] whose ['model_update_{i}.pt'] was stored, in order. *)
Definition dumps (tr : list Event) : list nat :=
  omap (fun e => match e with EvStoreModel (ModelUpdate i) => Some i | _ => None end) tr.

(** A projection that does not see the calls of the update phase. *)
Definition ignores_update_calls (proj : Event -> option nat) : Prop :=
  (forall x, proj (EvForward x) = None) /\ (forall x, proj (EvEnvStep x) = None) /\
  (forall x, proj (EvForwardValue x) = None) /\ (forall l, proj (EvUpdate l) = None).

(** Further concrete data: an agent with [gae_lambda = 0]. *)
Module ToyExtra.

Definition agent0 : Agent :=
  {| t_max := 2; n_worker := 2; gamma := 1; gae_lambda := 0; ppo_epoch := 2;
     epsilon := 1; batch_size := 1 |}.

End ToyExtra.

(** ** Lists, shapes and the flat view *)

Section ListFacts.
Context {A : Type}.

Lemma view_flat_lookup (n : nat) (x : list (list A)) (i : nat) :
  Forall (fun r => length r = n) x ->
  view_flat x !! i = x !! (i / n) ≫= (.!! (i mod n)).
Proof.
  intros Hx. revert i. induction Hx as [|r x Hr Hx IH]; intros i.
  - by rewrite /view_flat /= !lookup_nil.
  - simpl in Hr. rewrite /view_flat /=. destruct (decide (i < n)) as [Hi|Hi].
    + rewrite lookup_app_l; [lia|].
      rewrite Nat.div_small // Nat.mod_small //.
    + rewrite lookup_app_r; [lia|]. rewrite Hr.
      destruct (decide (n = 0)) as [->|Hn].
      * destruct r; [|done]. rewrite Nat.sub_0_r /=.
        fold (view_flat x). rewrite IH /=.
        destruct x as [|r' x']; [done|]. simpl.
        inversion Hx as [|? ? Hr' ?]; subst. by destruct r'.
      * fold (view_flat x). rewrite IH.
        assert (i / n = S ((i - n) / n)) as ->.
        { replace i with ((i - n) + 1 * n) at 1 by lia.
          rewrite Nat.div_add //. lia. }
        assert (i mod n = (i - n) mod n) as ->; [|done].
        replace i with ((i - n) + 1 * n) at 1 by lia.
        by rewrite Nat.Div0.mod_add.
Qed.

Lemma py_init_lookup (x : list A) (t : nat) :
  t < length x - 1 -> py_init x !! t = x !! t.
Proof. intros Ht. by rewrite /py_init lookup_take_lt. Qed.

Lemma py_init_length (x : list A) : length (py_init x) = length x - 1.
Proof. rewrite /py_init length_take. lia. Qed.

End ListFacts.

(** ** The samplers *)

Lemma batch_sampler_concat (bsize : nat) (batch l : list nat) :
  concat (batch_sampler bsize false batch l) = batch ++ l.
Proof.
  revert batch. induction l as [|idx l IH]; intros batch; simpl.
  - destruct batch; simpl; by rewrite ?app_nil_r.
  - destruct (length (batch ++ [idx]) =? bsize); simpl; rewrite IH;
      by rewrite -?app_assoc.
Qed.

Lemma batch_sampler_chunks (bsize : nat) (l batch : list nat) (j : nat) (c : list nat) :
  length batch < bsize ->
  batch_sampler bsize false batch l !! j = Some c ->
  0 < length c <= bsize /\
  (S j < length (batch_sampler bsize false batch l) -> length c = bsize).
Proof.
  revert batch j. induction l as [|idx l IH]; intros batch j Hb; simpl.
  - destruct batch as [|x batch]; simpl; [done|].
    destruct j; simpl; [|done]. intros [= <-]. simpl in *. lia.
  - destruct (Nat.eqb_spec (length (batch ++ [idx])) bsize) as [He|He].
    + destruct j as [|j]; simpl.
      * intros [= <-]. lia.
      * intros Hc. destruct (IH [] j ltac:(simpl; lia) Hc) as [? ?].
        split; [done|]. intros ?. auto with lia.
    + intros Hc. rewrite length_app /= in He.
      apply (IH (batch ++ [idx]) j); [rewrite length_app /=; lia|done].
Qed.

Lemma batch_sampler_length (bsize : nat) (l batch : list nat) :
  length batch < bsize ->
  length (batch_sampler bsize false batch l)
  = (length batch + length l + bsize - 1) / bsize.
Proof.
  revert batch. induction l as [|idx l IH]; intros batch Hb; simpl.
  - destruct batch as [|x batch]; simpl.
    + symmetry. apply Nat.div_small. lia.
    + simpl in Hb.
      apply (Nat.div_unique _ _ 1 (length batch)); lia.
  - destruct (Nat.eqb_spec (length (batch ++ [idx])) bsize) as [He|He];
      rewrite length_app /= in He; simpl.
    + rewrite IH /=; [lia|].
      replace (length batch + S (length l) + bsize - 1)
        with (length l + bsize - 1 + 1 * bsize) by lia.
      rewrite Nat.div_add; lia.
    + rewrite IH length_app /=; [lia|]. f_equal. lia.
Qed.

Section SamplerFacts.
Context {C : Collab}.

Lemma subset_random_sampler_seq (rng : Rng) (n : nat) :
  randperm_spec ->
  (subset_random_sampler rng (seq 0 n)).1 = (randperm rng n).1.
Proof.
  intros Hp. rewrite /subset_random_sampler /= length_seq.
  specialize (Hp rng n). set (p := (randperm rng n).1) in *.
  rewrite -{2}(list_fmap_id p). apply list_fmap_ext.
  intros i x Hx. simpl.
  assert (x ∈ seq 0 n) as Hin.
  { rewrite -Hp. by eapply list_elem_of_lookup_2. }
  apply elem_of_seq in Hin. rewrite lookup_total_seq_lt; lia.
Qed.

Lemma epoch_batches_fst (a : Agent) (rng : Rng) :
  randperm_spec ->
  (epoch_batches a rng).1
  = batch_sampler (batch_size a * n_worker a) false []
      (randperm rng (n_worker a * t_max a)).1.
Proof. intros Hp. by rewrite -subset_random_sampler_seq. Qed.

Lemma epoch_batches_partitions (a : Agent) (rng : Rng) :
  randperm_spec ->
  0 < batch_size a * n_worker a ->
  partitions (batch_size a * n_worker a) (n_worker a * t_max a) (epoch_batches a rng).1.
Proof.
  intros Hp Hb. rewrite epoch_batches_fst //.
  set (p := (randperm rng (n_worker a * t_max a)).1).
  assert (length p = n_worker a * t_max a) as Hlen.
  { rewrite /p (Permutation_length (Hp _ _)). by rewrite length_seq. }
  split; [|split].
  - rewrite batch_sampler_concat /=. apply Hp.
  - rewrite batch_sampler_length /=; [lia|]. by rewrite Hlen.
  - intros j c Hc. by apply batch_sampler_chunks in Hc; [|simpl; lia].
Qed.

(** Every index the sampler yields addresses one of the [n_worker * t_max]
    stored samples. *)
Lemma epoch_batches_in_range (a : Agent) (rng : Rng) (batch : list nat) (i : nat) :
  randperm_spec ->
  batch ∈ (epoch_batches a rng).1 -> i ∈ batch ->
  i < n_worker a * t_max a.
Proof.
  intros Hp Hb Hi.
  assert (i ∈ concat (epoch_batches a rng).1) as Hin.
  { apply list_elem_of_In, in_concat. exists batch.
    split; by apply list_elem_of_In. }
  rewrite epoch_batches_fst // batch_sampler_concat /= (Hp _ _) in Hin.
  apply elem_of_seq in Hin. lia.
Qed.

(** The minibatches of an epoch are not empty. *)
Lemma epoch_batches_nonempty (a : Agent) (rng : Rng) (batch : list nat) :
  randperm_spec ->
  0 < batch_size a * n_worker a ->
  batch ∈ (epoch_batches a rng).1 -> batch <> [].
Proof.
  intros Hp Hb [j Hj]%list_elem_of_lookup.
  destruct (epoch_batches_partitions a rng Hp Hb) as (_ & _ & Hc).
  destruct (Hc j batch Hj) as [Hlen _]. destruct batch; [simpl in Hlen; lia|done].
Qed.

End SamplerFacts.

(** ** Traces *)

Lemma count_app (p : Event -> bool) (t1 t2 : list Event) :
  count p (t1 ++ t2) = count p t1 + count p t2.
Proof. by rewrite /count filter_app length_app. Qed.

Lemma count_cons_false (p : Event -> bool) (e : Event) (tr : list Event) :
  p e = false -> count p (e :: tr) = count p tr.
Proof. intros He. rewrite /count filter_cons. case_decide; [congruence|done]. Qed.

Lemma quiet_nil : quiet [].
Proof. done. Qed.

Lemma quiet_cons (e : Event) (tr : list Event) :
  is_reset e = false -> is_env_step e = false ->
  is_update e = false -> is_forward_value e = false ->
  quiet tr -> quiet (e :: tr).
Proof.
  intros H1 H2 H3 H4 (Q1 & Q2 & Q3 & Q4).
  rewrite /quiet !count_cons_false //.
Qed.

Section EpochFacts.
Context {C : Collab}.

Lemma minibatch_trace_app (b : Buffers) (b1 b2 : list (list nat)) (l1 l2 : list Losses) :
  length b1 = length l1 ->
  minibatch_trace b (b1 ++ b2) (l1 ++ l2)
  = minibatch_trace b b1 l1 ++ minibatch_trace b b2 l2.
Proof. intros Hl. by rewrite /minibatch_trace zip_with_app // concat_app. Qed.

Lemma count_minibatch_trace (b : Buffers) (batches : list (list nat)) (ls : list Losses) :
  length ls = length batches ->
  count is_update (minibatch_trace b batches ls) = length batches /\
  count is_env_step (minibatch_trace b batches ls) = 0 /\
  count is_reset (minibatch_trace b batches ls) = 0 /\
  count is_forward_value (minibatch_trace b batches ls) = 0.
Proof.
  revert ls. induction batches as [|c batches IH]; intros [|l ls] Hl; try done.
  simpl in Hl. destruct (IH ls ltac:(lia)) as (I1 & I2 & I3 & I4).
  rewrite /minibatch_trace /= -/(minibatch_trace b batches ls).
  rewrite /count /= in I1 I2 I3 I4 |- *.
  repeat split; rewrite ?filter_cons /=; repeat case_decide; simpl; try done; lia.
Qed.

Lemma minibatches_trace (a : Agent) (b : Buffers) (adv : option (list Row))
    (batches : list (list nat)) (w : World) :
  exists ls, length ls = length batches /\
    w_trace (foldl (minibatch_update a b adv) w batches)
    = w_trace w ++ minibatch_trace b batches ls /\
    w_rng (foldl (minibatch_update a b adv) w batches) = w_rng w /\
    w_env (foldl (minibatch_update a b adv) w batches) = w_env w.
Proof.
  revert w. induction batches as [|c batches IH]; intros w; simpl.
  - exists []. by rewrite /minibatch_trace /= app_nil_r.
  - destruct (IH (minibatch_update a b adv w c)) as (ls & Hl & Ht & Hr & He).
    exists (minibatch_losses a b adv c (w_net w) :: ls).
    rewrite Ht Hr He /= Hl. repeat split; try done.
    by rewrite -app_assoc.
Qed.

Lemma ppo_epoch_run_trace (a : Agent) (b : Buffers) (adv : option (list Row)) (w : World) :
  exists ls, length ls = length (epoch_batches a (w_rng w)).1 /\
    w_trace (ppo_epoch_run a b adv w)
    = w_trace w ++ minibatch_trace b (epoch_batches a (w_rng w)).1 ls /\
    w_env (ppo_epoch_run a b adv w) = w_env w.
Proof.
  rewrite /ppo_epoch_run.
  destruct (minibatches_trace a b adv (epoch_batches a (w_rng w)).1
              (set_rng (epoch_batches a (w_rng w)).2 w)) as (ls & Hl & Ht & _ & He).
  exists ls. by rewrite Ht He.
Qed.

Lemma ppo_update_trace (a : Agent) (b : Buffers) (adv : option (list Row)) (w : World) :
  exists (epochs : list (list (list nat))) (ls : list Losses),
    length epochs = ppo_epoch a /\
    Forall (fun e => exists rng, e = (epoch_batches a rng).1) epochs /\
    length ls = length (concat epochs) /\
    w_trace (ppo_update a b adv w) = w_trace w ++ minibatch_trace b (concat epochs) ls /\
    w_env (ppo_update a b adv w) = w_env w.
Proof.
  rewrite /ppo_update. induction (ppo_epoch a) as [|n IH]; simpl.
  - exists [], []. by rewrite /minibatch_trace /= app_nil_r.
  - destruct IH as (epochs & ls & He & Hf & Hl & Ht & Hv).
    set (w1 := Nat.iter n (ppo_epoch_run a b adv) w) in *.
    destruct (ppo_epoch_run_trace a b adv w1) as (ls1 & Hl1 & Ht1 & Hv1).
    exists (epochs ++ [(epoch_batches a (w_rng w1)).1]), (ls ++ ls1).
    rewrite Ht1 Ht Hv1 Hv concat_app /= app_nil_r !length_app /= He Hl Hl1.
    rewrite minibatch_trace_app // app_assoc.
    repeat split; try done; try lia.
    apply Forall_app. split; [done|]. apply Forall_singleton. by exists (w_rng w1).
Qed.

End EpochFacts.

(** ** The rollout *)

Arguments step_data : simpl never.
Arguments rollout_data : simpl never.

Section RolloutFacts.
Context {C : Collab}.

Lemma store_obs_lookup (slot : nat) (state : list ObsSlot) (obs : list (list ObsSlot))
    (j : nat) :
  store_obs slot state obs !! j
  = match state !! j with
    | Some s => (fun t => <[slot := s]> t) <$> obs !! j
    | None => obs !! j
    end.
Proof.
  rewrite /store_obs. induction state as [|x state IH] using rev_ind; [done|].
  rewrite imap_app foldl_app /=. rewrite Nat.add_0_r.
  rewrite list_lookup_alter. case_decide as Hj.
  - subst j. rewrite IH lookup_app_r // Nat.sub_diag /=.
    by rewrite lookup_ge_None_2.
  - rewrite IH. destruct (decide (j < length state)) as [Hlt|Hge].
    + by rewrite lookup_app_l.
    + assert (state !! j = None) as ->; [apply lookup_ge_None_2; lia|].
      assert ((state ++ [x]) !! j = None) as ->; [|done].
      apply lookup_ge_None_2. rewrite length_app /=. lia.
Qed.

Lemma store_obs_length (slot : nat) (state : list ObsSlot) (obs : list (list ObsSlot)) :
  length (store_obs slot state obs) = length obs.
Proof.
  rewrite /store_obs. induction state as [|x state IH] using rev_ind; [done|].
  by rewrite imap_app foldl_app /= length_alter.
Qed.

Lemma rollout_prefix_S (bw : Buffers * World) (s : nat) :
  rollout_prefix bw (S s) = rollout_step (rollout_prefix bw s) s.
Proof. by rewrite /rollout_prefix seq_S foldl_app. Qed.

Lemma rollout_prefix_trace (bw : Buffers * World) (n : nat) :
  w_trace (rollout_prefix bw n).2 = w_trace bw.2 ++ rollout_trace bw n.
Proof.
  induction n as [|n IH].
  - by rewrite /rollout_trace /= app_nil_r.
  - rewrite rollout_prefix_S /= IH /rollout_trace seq_S bind_app /= -app_assoc.
    by rewrite ?app_nil_r.
Qed.

Lemma rollout_step_rewards (bw : Buffers * World) (s : nat) :
  rewards (rollout_step bw s).1 = <[s := sd_reward (step_data bw.1 bw.2 s)]> (rewards bw.1).
Proof. done. Qed.

Lemma rollout_step_value_predictions (bw : Buffers * World) (s : nat) :
  value_predictions (rollout_step bw s).1
  = <[s := sd_value (step_data bw.1 bw.2 s)]> (value_predictions bw.1).
Proof. done. Qed.

Lemma rollout_step_old_log_probs (bw : Buffers * World) (s : nat) :
  old_log_probs (rollout_step bw s).1
  = <[s := sd_log_probs (step_data bw.1 bw.2 s)]> (old_log_probs bw.1).
Proof. done. Qed.

Lemma rollout_step_actions (bw : Buffers * World) (s : nat) :
  actions (rollout_step bw s).1 = <[s := sd_actions (step_data bw.1 bw.2 s)]> (actions bw.1).
Proof. done. Qed.

Lemma rollout_step_masks (bw : Buffers * World) (s : nat) :
  masks (rollout_step bw s).1
  = <[s := np_masks (sd_done (step_data bw.1 bw.2 s))]> (masks bw.1).
Proof. done. Qed.

Lemma rollout_step_returns (bw : Buffers * World) (s : nat) :
  returns (rollout_step bw s).1 = returns bw.1.
Proof. done. Qed.

Lemma rollout_step_observations (bw : Buffers * World) (s : nat) :
  observations (rollout_step bw s).1
  = store_obs (S s)
      (mask_state (np_masks (sd_done (step_data bw.1 bw.2 s)))
         <$> sd_state (step_data bw.1 bw.2 s))
      (observations bw.1).
Proof. done. Qed.

Lemma store_obs_time_length (n slot : nat) (state : list ObsSlot)
    (obs : list (list ObsSlot)) :
  Forall (fun o => length o = n) obs ->
  Forall (fun o => length o = n) (store_obs slot state obs).
Proof.
  intros Ho. apply Forall_lookup. intros j o. rewrite store_obs_lookup.
  destruct (state !! j) as [st|]; intros Hj.
  - apply fmap_Some in Hj as (o' & Hj & ->). rewrite length_insert.
    by eapply (proj1 (Forall_lookup _ _) Ho).
  - by eapply (proj1 (Forall_lookup _ _) Ho).
Qed.

Lemma rollout_step_allocated (a : Agent) (bw : Buffers * World) (s : nat) :
  buffers_allocated a bw.1 -> buffers_allocated a (rollout_step bw s).1.
Proof.
  intros [Ho Hr Hv Hl Hret Ha Hm].
  split.
  - rewrite rollout_step_observations. by apply store_obs_time_length.
  - by rewrite rollout_step_rewards length_insert.
  - by rewrite rollout_step_value_predictions length_insert.
  - by rewrite rollout_step_old_log_probs length_insert.
  - by rewrite rollout_step_returns.
  - by rewrite rollout_step_actions length_insert.
  - by rewrite rollout_step_masks length_insert.
Qed.

Lemma rollout_prefix_allocated (a : Agent) (bw : Buffers * World) (n : nat) :
  buffers_allocated a bw.1 -> buffers_allocated a (rollout_prefix bw n).1.
Proof.
  intros Hb. induction n as [|n IH]; [done|].
  rewrite rollout_prefix_S. by apply rollout_step_allocated.
Qed.

Lemma rollout_prefix_observations_length (bw : Buffers * World) (n : nat) :
  length (observations (rollout_prefix bw n).1) = length (observations bw.1).
Proof.
  induction n as [|n IH]; [done|].
  by rewrite rollout_prefix_S rollout_step_observations store_obs_length.
Qed.

Lemma rollout_prefix_stores (a : Agent) (bw : Buffers * World) (n s : nat) :
  buffers_allocated a bw.1 -> n <= t_max a -> s < n ->
  stores_step (rollout_prefix bw n).1 s (rollout_data bw s).
Proof.
  intros Hb. induction n as [|n IH]; intros Hn Hs; [lia|].
  pose proof (rollout_prefix_allocated a bw n Hb) as [Ho Hr Hv Hl Hret Ha Hm].
  rewrite rollout_prefix_S /stores_step.
  rewrite rollout_step_rewards rollout_step_value_predictions
    rollout_step_old_log_probs rollout_step_actions rollout_step_masks
    rollout_step_observations -/(rollout_data bw n).
  destruct (decide (s = n)) as [->|Hne].
  - rewrite !list_lookup_insert_eq; try lia. repeat split; try done.
    intros j st Hst [o Hj]. rewrite store_obs_lookup in Hj |- *.
    rewrite list_lookup_fmap Hst /= in Hj |- *.
    apply fmap_Some in Hj as (o' & Hj & ->). rewrite Hj /=.
    rewrite list_lookup_insert_eq //.
    rewrite (proj1 (Forall_lookup _ _) Ho _ _ Hj). lia.
  - destruct (IH ltac:(lia) ltac:(lia)) as (I1 & I2 & I3 & I4 & I5 & I6).
    rewrite !list_lookup_insert_ne; try lia. repeat split; try done.
    intros j st Hst [o Hj]. rewrite store_obs_lookup in Hj |- *.
    destruct ((_ <$> sd_state (rollout_data bw n)) !! j) as [st'|] eqn:Hst'.
    + apply fmap_Some in Hj as (o' & Hj & ->).
      rewrite -(I6 j st Hst); [by eexists|].
      rewrite Hj /=. rewrite list_lookup_insert_ne //. lia.
    + apply I6; [done|by eexists].
Qed.






End RolloutFacts.

(** ** One update: rollout, returns, epochs *)

Section UpdateFacts.
Context {C : Collab}.

Lemma count_rollout_trace (bw : Buffers * World) (n : nat) :
  count is_env_step (rollout_trace bw n) = n /\
  count is_update (rollout_trace bw n) = 0 /\
  count is_reset (rollout_trace bw n) = 0 /\
  count is_forward_value (rollout_trace bw n) = 0.
Proof.
  induction n as [|n (I1 & I2 & I3 & I4)]; [done|].
  rewrite /rollout_trace seq_S bind_app -/(rollout_trace bw n) !count_app.
  rewrite I1 I2 I3 I4 /count /=. repeat split; lia.
Qed.

Lemma calc_returns_trace (a : Agent) (bw : Buffers * World) :
  w_trace (calc_returns a bw).2
  = w_trace bw.2 ++
    [EvForwardValue ((fun obs : list ObsSlot => obs !!! py_last obs) <$> observations bw.1)].
Proof. done. Qed.

Lemma calc_returns_observations (a : Agent) (bw : Buffers * World) :
  observations (calc_returns a bw).1 = observations bw.1.
Proof. done. Qed.

Lemma update_phase_trace (a : Agent) (st : LoopState) :
  let bw1 := rollout a (ls_buffers st, ls_world st) in
  let bw2 := calc_returns a bw1 in
  exists (epochs : list (list (list nat))) (ls : list Losses),
    length epochs = ppo_epoch a /\
    Forall (fun e => exists rng, e = (epoch_batches a rng).1) epochs /\
    length ls = length (concat epochs) /\
    w_trace (ls_world (update_phase a st))
    = w_trace (ls_world st) ++ rollout_trace (ls_buffers st, ls_world st) (t_max a)
      ++ EvForwardValue ((fun obs : list ObsSlot => obs !!! py_last obs)
                           <$> observations bw1.1)
         :: minibatch_trace bw2.1 (concat epochs) ls.
Proof.
  intros bw1 bw2.
  destruct (ppo_update_trace a bw2.1 (normalize (raw_advantages bw2.1)) bw2.2)
    as (epochs & ls & He & Hf & Hl & Ht & _).
  exists epochs, ls. repeat split; try done.
  rewrite /update_phase /= -/bw1 -/bw2 Ht /bw2 calc_returns_trace /bw1 /rollout.
  rewrite -/(rollout_prefix _ (t_max a)) rollout_prefix_trace /=.
  by rewrite -!app_assoc.
Qed.


End UpdateFacts.

(** ** The claims about one update *)

Section UpdateClaims.
Context {C : Collab}.




End UpdateClaims.

(** ** Evaluation, dumps and the loop *)

Section LoopFacts.
Context {C : Collab}.

Lemma record_best_spec (args : TrainArgs) (score : R) (st : LoopState) :
  let st1 := record_best args score st in
  ls_buffers st1 = ls_buffers st /\
  ls_evaluator st1 = ls_evaluator st /\
  ls_scheduler st1 = ls_scheduler st /\
  exists delta, w_trace (ls_world st1) = w_trace (ls_world st) ++ delta /\ quiet delta.
Proof.
  rewrite /record_best. destruct (improvement _ _ _); simpl.
  - repeat split; try done. exists [EvStoreModel BestModel].
    split; [done|]. by apply quiet_cons.
  - repeat split; try done. exists []. by rewrite app_nil_r.
Qed.

Lemma evaluation_spec (args : TrainArgs) (i : nat) (st : LoopState) :
  let r := evaluation args i st in
  ls_buffers r.1 = ls_buffers st /\
  supplied (ls_evaluator r.1) = supplied (ls_evaluator st) /\
  supplied (ls_scheduler r.1) = supplied (ls_scheduler st) /\
  exists delta, w_trace (ls_world r.1) = w_trace (ls_world st) ++ delta /\ quiet delta.
Proof.
  rewrite /evaluation.
  destruct (ls_evaluator st) as [ev|] eqn:Hev; simpl;
    [|rewrite Hev; repeat split; try done; exists []; by rewrite app_nil_r].
  case_decide as Hi; simpl;
    [|rewrite Hev; repeat split; try done; exists []; by rewrite app_nil_r].
  destruct (score_name args) as [name|]; simpl.
  - destruct (ls_scheduler st) as [sch|] eqn:Hsch; simpl.
    + case_decide as Hlr; simpl.
      * repeat split; try done.
        eexists (_ :: _ :: _ :: [_]). rewrite -app_assoc. split; [done|].
        by repeat (apply quiet_cons; [done..|]).
      * match goal with |- context [record_best ?x ?y ?z] =>
          destruct (record_best_spec x y z) as (-> & -> & -> & delta & -> & Hq) end.
        simpl. repeat split; try done.
        exists (EvEvalMode :: EvEvaluate (i / eval_interval args) :: EvTrainMode
                :: EvSchedulerStep (stats_get
                     (evaluate ev (w_net (ls_world st)) (w_rng (ls_world st))
                        (i / eval_interval args)).1.1 name) :: delta).
        rewrite -!app_assoc. split; [done|].
        by repeat (apply quiet_cons; [done..|]).
    + match goal with |- context [record_best ?x ?y ?z] =>
        destruct (record_best_spec x y z) as (-> & -> & -> & delta & -> & Hq) end.
      simpl. repeat split; try done.
      exists (EvEvalMode :: EvEvaluate (i / eval_interval args) :: EvTrainMode :: delta).
      rewrite -!app_assoc. split; [done|].
      by repeat (apply quiet_cons; [done..|]).
  - repeat split; try done.
    eexists (_ :: _ :: [_]). split; [done|].
    by repeat (apply quiet_cons; [done..|]).
Qed.

(** The loop breaks only in the branch of line 204. *)
Lemma evaluation_break (args : TrainArgs) (i : nat) (st : LoopState) :
  (evaluation args i st).2 = true ->
  supplied (ls_evaluator st) = true /\
  supplied (ls_scheduler st) = true /\
  supplied (score_name args) = true /\
  i mod eval_interval args = 0 /\
  net_lr (w_net (ls_world (evaluation args i st).1)) = 0%R /\
  exists score, last (w_trace (ls_world (evaluation args i st).1))
                = Some (EvSchedulerStep score).
Proof.
  rewrite /evaluation.
  destruct (ls_evaluator st) as [ev|]; simpl; [|done].
  case_decide as Hi; simpl; [|done].
  destruct (score_name args) as [name|]; simpl; [|done].
  destruct (ls_scheduler st) as [sch|]; simpl; [|done].
  case_decide as Hlr; simpl; [|done].
  intros _. repeat split; try done.
  eexists. by rewrite last_snoc.
Qed.

Lemma dump_spec (args : TrainArgs) (i : nat) (st : LoopState) :
  ls_buffers (dump args i st) = ls_buffers st /\
  ls_evaluator (dump args i st) = ls_evaluator st /\
  ls_scheduler (dump args i st) = ls_scheduler st /\
  exists delta, w_trace (ls_world (dump args i st)) = w_trace (ls_world st) ++ delta
                /\ quiet delta.
Proof.
  rewrite /dump. case_decide; simpl; repeat split; try done.
  - eexists [_]. split; [done|]. by apply quiet_cons.
  - exists []. by rewrite app_nil_r.
Qed.

Lemma gae_fold_length (a : Agent) (b : Buffers) (st : Gae * list Row) (l : list nat) :
  length (foldl (gae_step a b) st l).2 = length st.2.
Proof.
  revert st. induction l as [|s l IH]; intros st; [done|].
  by rewrite /= IH /= length_insert.
Qed.

Lemma calc_returns_allocated (a : Agent) (bw : Buffers * World) :
  buffers_allocated a bw.1 -> buffers_allocated a (calc_returns a bw).1.
Proof.
  intros [Ho Hr Hv Hl Hret Ha Hm]. split; try done.
  - by rewrite /= length_insert.
  - by rewrite /= gae_fold_length.
Qed.

Lemma save_latest_state_allocated (a : Agent) (b : Buffers) :
  buffers_allocated a b -> buffers_allocated a (save_latest_state b).
Proof.
  intros [Ho Hr Hv Hl Hret Ha Hm]. split; try done.
  rewrite /=. apply Forall_fmap. eapply Forall_impl; [exact Ho|].
  intros o Hlen. by rewrite /= length_insert.
Qed.

Lemma rollout_allocated (a : Agent) (bw : Buffers * World) :
  buffers_allocated a bw.1 -> buffers_allocated a (rollout a bw).1.
Proof. apply (rollout_prefix_allocated a bw (t_max a)). Qed.

Lemma update_phase_buffers (a : Agent) (st : LoopState) :
  ls_buffers (update_phase a st)
  = save_latest_state (calc_returns a (rollout a (ls_buffers st, ls_world st))).1.
Proof. done. Qed.

Lemma update_phase_counts (a : Agent) (st : LoopState) :
  exists delta,
    w_trace (ls_world (update_phase a st)) = w_trace (ls_world st) ++ delta /\
    count is_reset delta = 0 /\
    count is_forward_value delta = 1 /\
    count is_env_step delta = t_max a.
Proof.
  destruct (update_phase_trace a st) as (epochs & ls & He & Hf & Hl & Ht).
  destruct (count_rollout_trace (ls_buffers st, ls_world st) (t_max a))
    as (R1 & R2 & R3 & R4).
  match type of Ht with context [minibatch_trace ?b _ _] =>
    destruct (count_minibatch_trace b (concat epochs) ls Hl) as (M1 & M2 & M3 & M4) end.
  eexists. split; [exact Ht|].
  rewrite !count_app !(count_app _ [_] (minibatch_trace _ _ _)) R1 R3 R4 M2 M3 M4.
  rewrite /count /=. repeat split; lia.
Qed.

Lemma train_iteration_spec (a : Agent) (args : TrainArgs) (i : nat) (st : LoopState) :
  let r := train_iteration a args i st in
  ls_buffers r.1
  = save_latest_state (calc_returns a (rollout a (ls_buffers st, ls_world st))).1 /\
  supplied (ls_evaluator r.1) = supplied (ls_evaluator st) /\
  supplied (ls_scheduler r.1) = supplied (ls_scheduler st) /\
  exists delta,
    w_trace (ls_world r.1) = w_trace (ls_world st) ++ delta /\
    count is_reset delta = 0 /\
    count is_forward_value delta = 1 /\
    count is_env_step delta = t_max a.
Proof.
  rewrite /train_iteration.
  destruct (evaluation_spec args i (update_phase a st))
    as (Eb & Ee & Es & d2 & Et & Q1 & Q2 & Q3 & Q4).
  destruct (update_phase_counts a st) as (d1 & Ut & U1 & U2 & U3).
  destruct (evaluation args i (update_phase a st)) as [st1 [|]]; simpl in *.
  - rewrite Eb Ee Es Et Ut. repeat split; try done.
    exists (d1 ++ d2). rewrite app_assoc !count_app U1 U2 U3 Q1 Q2 Q4.
    repeat split; lia.
  - destruct (dump_spec args i st1) as (-> & -> & -> & d3 & -> & Q1' & Q2' & Q3' & Q4').
    rewrite Eb Ee Es Et Ut. repeat split; try done.
    exists (d1 ++ d2 ++ d3).
    rewrite !app_assoc !count_app U1 U2 U3 Q1 Q2 Q4 Q1' Q2' Q4'.
    repeat split; lia.
Qed.

Lemma train_iteration_allocated (a : Agent) (args : TrainArgs) (i : nat) (st : LoopState) :
  buffers_allocated a (ls_buffers st) ->
  buffers_allocated a (ls_buffers (train_iteration a args i st).1).
Proof.
  intros Hb. destruct (train_iteration_spec a args i st) as (-> & _).
  by apply save_latest_state_allocated, calc_returns_allocated, rollout_allocated.
Qed.

Lemma train_iteration_break (a : Agent) (args : TrainArgs) (i : nat) (st : LoopState) :
  (train_iteration a args i st).2 = true ->
  supplied (ls_evaluator st) = true /\
  supplied (ls_scheduler st) = true /\
  supplied (score_name args) = true /\
  i mod eval_interval args = 0 /\
  net_lr (w_net (ls_world (train_iteration a args i st).1)) = 0%R /\
  exists score, last (w_trace (ls_world (train_iteration a args i st).1))
                = Some (EvSchedulerStep score).
Proof.
  rewrite /train_iteration.
  pose proof (evaluation_break args i (update_phase a st)) as Hbr.
  destruct (evaluation args i (update_phase a st)) as [st1 [|]]; simpl in *; [|done].
  intros _. by apply Hbr.
Qed.

Lemma train_loop_app (a : Agent) (args : TrainArgs) (l1 l2 : list nat) (st : LoopState) :
  train_loop a args (l1 ++ l2) st
  = let r := train_loop a args l1 st in
    match r.2 with
    | Some _ => r
    | None => train_loop a args l2 r.1
    end.
Proof.
  revert st. induction l1 as [|i l1 IH]; intros st; [done|].
  simpl. destruct (train_iteration a args i st) as [st1 [|]]; simpl; [done|].
  apply IH.
Qed.

Lemma train_loop_allocated (a : Agent) (args : TrainArgs) (l : list nat) (st : LoopState) :
  buffers_allocated a (ls_buffers st) ->
  buffers_allocated a (ls_buffers (train_loop a args l st).1).
Proof.
  revert st. induction l as [|i l IH]; intros st Hb; [done|].
  simpl. pose proof (train_iteration_allocated a args i st Hb) as Hb1.
  destruct (train_iteration a args i st) as [st1 [|]]; simpl in *; [done|].
  by apply IH.
Qed.

(** The loop over [i = k, ..., k + n - 1]: it runs [n] passes unless it
    breaks at some [i], in which case it has run the passes up to [i]. *)
Lemma train_loop_spec (a : Agent) (args : TrainArgs) (n k : nat) (st : LoopState) :
  let r := train_loop a args (seq k n) st in
  (exists delta,
     w_trace (ls_world r.1) = w_trace (ls_world st) ++ delta /\
     count is_reset delta = 0 /\
     count is_forward_value delta
     = match r.2 with Some i => S i - k | None => n end /\
     count is_env_step delta
     = t_max a * match r.2 with Some i => S i - k | None => n end) /\
  match r.2 with
  | None => True
  | Some i =>
      k <= i < k + n /\
      supplied (ls_evaluator st) = true /\
      supplied (ls_scheduler st) = true /\
      supplied (score_name args) = true /\
      i mod eval_interval args = 0 /\
      net_lr (w_net (ls_world r.1)) = 0%R /\
      exists score, last (w_trace (ls_world r.1)) = Some (EvSchedulerStep score)
  end.
Proof.
  revert k st. induction n as [|n IH]; intros k st; simpl.
  - split; [|done]. exists []. rewrite app_nil_r. repeat split; try done; try lia.
  - destruct (train_iteration_spec a args k st) as (_ & Ee & Es & d1 & Ht & T1 & T2 & T3).
    pose proof (train_iteration_break a args k st) as Hbr.
    destruct (train_iteration a args k st) as [st1 [|]]; simpl in *.
    + split.
      * exists d1. rewrite T2 T3. repeat split; try done; try lia.
      * destruct (Hbr eq_refl) as (? & ? & ? & ? & ? & ?).
        repeat split; try done; try lia.
    + destruct (IH (S k) st1) as ((d2 & Ht2 & L1 & L2 & L3) & Hm).
      destruct (train_loop a args (seq (S k) n) st1) as [st2 [i|]]; simpl in *.
      * split.
        -- exists (d1 ++ d2). rewrite Ht2 Ht app_assoc !count_app T1 T2 T3 L1 L2 L3.
           destruct Hm as (? & _). repeat split; try done; try lia.
        -- destruct Hm as (? & He & Hs & ? & ? & ? & ?). rewrite -Ee -Es.
           repeat split; try done; try lia.
      * split; [|done].
        exists (d1 ++ d2). rewrite Ht2 Ht app_assoc !count_app T1 T2 T3 L1 L2 L3.
        repeat split; try done; try lia.
Qed.

End LoopFacts.

(** ** The claims about the loop *)

Section LoopClaims.
Context {C : Collab}.

Lemma train_init_allocated (a : Agent) (ev : option Evaluator) (sch : option Scheduler)
    (w : World) :
  buffers_allocated a (ls_buffers (train_init a ev sch w)).
Proof.
  split; rewrite /= /zeros ?length_replicate //.
  apply store_obs_time_length, Forall_fmap, Forall_forall.
  intros sz _. by rewrite /= length_replicate.
Qed.

Lemma train_loop_snoc (a : Agent) (args : TrainArgs) (n : nat) (st : LoopState) :
  (train_loop a args (seq 1 n) st).2 = None ->
  (train_loop a args (seq 1 (S n)) st).1
  = (train_iteration a args (S n) (train_loop a args (seq 1 n) st).1).1.
Proof.
  intros Hn. rewrite seq_S train_loop_app /= Hn /=.
  by destruct (train_iteration _ _ _ _) as [st1 [|]].
Qed.


(** C6. Training is one trajectory: [env.reset] is called once per call of
    [train]; the first pass starts with the observations [env.reset]
    returned in slot 0; and whenever pass [n + 1] is reached, the state the
    loop leaves it with has in slot 0, for every worker, the observation
    that the rollout of that pass left in slot [t_max]. *)
Theorem training_is_one_trajectory (a : Agent) (args : TrainArgs)
    (ev : option Evaluator) (sch : option Scheduler) (w : World) (n : nat) :
  let st0 := train_init a ev sch w in
  let before := train_loop a args (seq 1 n) st0 in
  let after := train_loop a args (seq 1 (S n)) st0 in
  let bw1 := rollout a (ls_buffers before.1, ls_world before.1) in
  before.2 = None ->
  (forall j o, (env_reset (w_env w)).1 !! j = Some o ->
     j < length (env_obs_sizes (w_env w)) ->
     observations (ls_buffers st0) !! j ≫= (.!! 0) = Some o) /\
  (forall j tensor, observations bw1.1 !! j = Some tensor ->
     is_Some (tensor !! t_max a) /\
     observations (ls_buffers after.1) !! j ≫= (.!! 0) = tensor !! t_max a) /\
  count is_reset (w_trace (ls_world (train a args ev sch w).1))
  = count is_reset (w_trace w) + 1.
Proof.
  intros st0 before after bw1 Hreach. split; [|split].
  - intros j o Ho Hj.
    rewrite /st0 /= store_obs_lookup Ho list_lookup_fmap.
    destruct (lookup_lt_is_Some_2 _ _ Hj) as [sz ->]. simpl.
    rewrite list_lookup_insert_eq // length_replicate. lia.
  - intros j tensor Hj.
    assert (buffers_allocated a bw1.1) as [Ho _ _ _ _ _ _].
    { apply rollout_allocated, train_loop_allocated, train_init_allocated. }
    pose proof (proj1 (Forall_lookup _ _) Ho _ _ Hj) as Hlen. simpl in Hlen.
    destruct (lookup_lt_is_Some_2 tensor (t_max a) ltac:(lia)) as [x Hx].
    split; [by eexists|].
    rewrite /after train_loop_snoc // -/before.
    destruct (train_iteration_spec a args (S n) before.1) as (-> & _).
    rewrite /= -/bw1 list_lookup_fmap Hj /= list_lookup_insert_eq; [lia|].
    rewrite Hx /py_last Hlen. f_equal.
    apply list_lookup_total_correct. by replace (t_max a + 1 - 1) with (t_max a) by lia.
  - rewrite /train.
    destruct (train_loop_spec a args (max_updates args) 1 st0)
      as ((delta & Ht & Hr & _) & _).
    rewrite Ht /st0 /= -app_assoc !count_app Hr /count /=. lia.
Qed.

End LoopClaims.

(** ** Shapes and flat indices *)

Section ShapeFacts.
Context {A : Type} `{Inhabited A}.

Lemma flat_index_in_range (n t i : nat) :
  i < n * t -> i / n < t /\ i mod n < n.
Proof.
  intros Hi. assert (n <> 0) by (intros ->; lia).
  split; [by apply Nat.Div0.div_lt_upper_bound|by apply Nat.mod_upper_bound].
Qed.

Lemma shaped_lookup (k n : nat) (x : list (list A)) (t w : nat) :
  shaped k n x -> t < k -> w < n ->
  x !! t ≫= (.!! w) = Some (entry x t w).
Proof.
  intros [Hk Hn] Ht Hw.
  destruct (lookup_lt_is_Some_2 x t ltac:(lia)) as [row Hrow].
  pose proof (proj1 (Forall_lookup _ _) Hn _ _ Hrow) as Hlen. simpl in Hlen.
  destruct (lookup_lt_is_Some_2 row w ltac:(lia)) as [v Hv].
  rewrite Hrow /= Hv /entry.
  by rewrite (list_lookup_total_correct _ _ _ Hrow) (list_lookup_total_correct _ _ _ Hv).
Qed.

Lemma shaped_row (k n : nat) (x : list (list A)) (t w : nat) :
  shaped k n x -> t < k -> w < n ->
  (x !!! t) !! w = Some (entry x t w).
Proof.
  intros Hx Ht Hw. pose proof (shaped_lookup k n x t w Hx Ht Hw) as Hl.
  destruct Hx as [Hk _].
  destruct (lookup_lt_is_Some_2 x t ltac:(lia)) as [row Hrow].
  rewrite Hrow /= in Hl. by rewrite (list_lookup_total_correct _ _ _ Hrow).
Qed.

Lemma shaped_row_length (k n : nat) (x : list (list A)) (t : nat) :
  shaped k n x -> t < k -> length (x !!! t) = n.
Proof.
  intros [Hk Hn] Ht.
  destruct (lookup_lt_is_Some_2 x t ltac:(lia)) as [row Hrow].
  rewrite (list_lookup_total_correct _ _ _ Hrow).
  apply (proj1 (Forall_lookup _ _) Hn _ _ Hrow).
Qed.

Lemma shaped_py_init (k n : nat) (x : list (list A)) :
  shaped (k + 1) n x -> shaped k n (py_init x).
Proof.
  intros [Hk Hn]. split.
  - rewrite py_init_length. lia.
  - by apply Forall_take.
Qed.

Lemma py_init_entry (k : nat) (x : list (list A)) (t w : nat) :
  length x = k + 1 -> t < k -> entry (py_init x) t w = entry x t w.
Proof.
  intros Hk Ht. rewrite /entry. f_equal.
  rewrite !list_lookup_total_alt py_init_lookup //. lia.
Qed.

(** The flat view of a tensor of [k] rows of [n] entries: the flat index
    [i] addresses step [i / n], worker [i mod n]. *)
Lemma shaped_view_flat (k n : nat) (x : list (list A)) (i : nat) :
  shaped k n x -> i < n * k ->
  view_flat x !! i = Some (entry x (i / n) (i mod n)).
Proof.
  intros Hx Hi. destruct (flat_index_in_range n k i Hi) as [Ht Hw].
  rewrite (view_flat_lookup n); [by destruct Hx|].
  by apply (shaped_lookup k n).
Qed.

Lemma shaped_view_flat_total (k n : nat) (x : list (list A)) (i : nat) :
  shaped k n x -> i < n * k ->
  view_flat x !!! i = entry x (i / n) (i mod n).
Proof.
  intros Hx Hi. apply list_lookup_total_correct. by apply (shaped_view_flat k n).
Qed.

(** The same for a tensor with one more row that is flattened without
    slicing: the indices below [n * k] stay in the first [k] rows. *)
Lemma shaped_view_flat_unsliced (k n : nat) (x : list (list A)) (i : nat) :
  shaped (k + 1) n x -> i < n * k ->
  view_flat x !! i = Some (entry x (i / n) (i mod n)) /\ i / n <> k.
Proof.
  intros Hx Hi. destruct (flat_index_in_range n k i Hi) as [Ht Hw].
  split; [|lia]. rewrite (view_flat_lookup n); [by destruct Hx|].
  apply (shaped_lookup (k + 1) n); [done|lia|done].
Qed.

Lemma gather_entries (k n : nat) (x : list (list A)) (indices : list nat) :
  shaped k n x -> Forall (fun i => i < n * k) indices ->
  gather (view_flat x) indices = (fun i => entry x (i / n) (i mod n)) <$> indices.
Proof.
  intros Hx Hi. rewrite /gather. apply Forall_fmap_ext_1.
  eapply Forall_impl; [exact Hi|]. intros i Hlt.
  by apply (shaped_view_flat_total k n).
Qed.

End ShapeFacts.

Lemma buffers_shaped_allocated (a : Agent) (b : Buffers) :
  buffers_shaped a b -> buffers_allocated a b.
Proof.
  intros [Ho [? _] [? _] [? _] [? _] [? _] [? _]]. split; try done.
  eapply Forall_impl; [exact Ho|]. by intros o [? _].
Qed.

Section AlignmentClaim.
Context {C : Collab}.

Lemma states_batch_entries (a : Agent) (b : Buffers) (indices : list nat) :
  buffers_shaped a b ->
  Forall (fun i => i < n_worker a * t_max a) indices ->
  states_batch b indices
  = (fun obs : list ObsSlot =>
       (fun i => entry obs (i / n_worker a) (i mod n_worker a)) <$> indices)
      <$> observations b.
Proof.
  intros [Ho _ _ _ _ _ _] Hi. rewrite /states_batch. apply Forall_fmap_ext_1.
  eapply Forall_impl; [exact Ho|]. intros obs Hs. simpl.
  rewrite (gather_entries (t_max a) (n_worker a)) //; [by apply shaped_py_init|].
  apply Forall_fmap_ext_1. eapply Forall_impl; [exact Hi|]. intros i Hlt. simpl.
  destruct (flat_index_in_range _ _ _ Hlt) as [Ht Hk].
  by rewrite (py_init_entry (t_max a)) //; destruct Hs.
Qed.

Lemma returns_batch_entries (a : Agent) (b : Buffers) (indices : list nat) :
  buffers_shaped a b ->
  Forall (fun i => i < n_worker a * t_max a) indices ->
  gather (view_flat (py_init (returns b))) indices
  = (fun i => entry (returns b) (i / n_worker a) (i mod n_worker a)) <$> indices.
Proof.
  intros [_ _ _ _ Hret _ _] Hi.
  rewrite (gather_entries (t_max a) (n_worker a)) //; [by apply shaped_py_init|].
  apply Forall_fmap_ext_1. eapply Forall_impl; [exact Hi|]. intros i Hlt. simpl.
  destruct (flat_index_in_range _ _ _ Hlt) as [Ht Hk].
  by rewrite (py_init_entry (t_max a)) //; destruct Hret.
Qed.

Lemma old_log_probs_batch_entries (a : Agent) (b : Buffers) (indices : list nat) :
  buffers_shaped a b ->
  Forall (fun i => i < n_worker a * t_max a) indices ->
  gather (view_flat (old_log_probs b)) indices
  = (fun i => entry (old_log_probs b) (i / n_worker a) (i mod n_worker a)) <$> indices.
Proof.
  intros [_ _ _ Hl _ _ _] Hi. rewrite /gather. apply Forall_fmap_ext_1.
  eapply Forall_impl; [exact Hi|]. intros i Hlt. simpl.
  apply list_lookup_total_correct.
  by apply (shaped_view_flat_unsliced (t_max a)).
Qed.

(** C9. Every flat index [i] the sampler yields is below
    [n_worker * t_max], and the entries taken at [i] from the flattened
    observations, actions, returns, stored log-probabilities and advantages
    are all the entries of step [i / n_worker], worker [i mod n_worker], so
    that the batches of one minibatch are aligned; the stored
    log-probabilities are flattened over [t_max + 1] slots, and [i] never
    addresses the last one. *)
Theorem minibatch_alignment (a : Agent) (b : Buffers) (adv : list Row) (rng : Rng)
    (batch : list nat) (i : nat) :
  randperm_spec ->
  buffers_shaped a b ->
  shaped (t_max a) (n_worker a) adv ->
  batch ∈ (epoch_batches a rng).1 ->
  i ∈ batch ->
  let t := i / n_worker a in
  let k := i mod n_worker a in
  let at_sample {X} `{Inhabited X} (x : list (list X)) : list X :=
    (fun i => entry x (i / n_worker a) (i mod n_worker a)) <$> batch in
  i < n_worker a * t_max a /\ t < t_max a /\ k < n_worker a /\
  (forall obs, obs ∈ observations b ->
     view_flat (py_init obs) !! i = Some (entry obs t k)) /\
  view_flat (actions b) !! i = Some (entry (actions b) t k) /\
  view_flat (py_init (returns b)) !! i = Some (entry (returns b) t k) /\
  (view_flat (old_log_probs b) !! i = Some (entry (old_log_probs b) t k)
   /\ t <> t_max a) /\
  view_flat adv !! i = Some (entry adv t k) /\
  states_batch b batch = at_sample <$> observations b /\
  gather (view_flat (actions b)) batch = at_sample (actions b) /\
  gather (view_flat (py_init (returns b))) batch = at_sample (returns b) /\
  gather (view_flat (old_log_probs b)) batch = at_sample (old_log_probs b) /\
  gather (view_flat adv) batch = at_sample adv.
Proof.
  intros Hp Hb Hadv Hin Hi t k at_sample.
  pose proof Hb as [Ho Hr Hv Hl Hret Ha Hm].
  pose proof (epoch_batches_in_range a rng batch i Hp Hin Hi) as Hlt.
  assert (Forall (fun i => i < n_worker a * t_max a) batch) as Hall.
  { apply Forall_forall. intros i' Hi'.
    by apply (epoch_batches_in_range a rng batch). }
  destruct (flat_index_in_range _ _ _ Hlt) as [Ht Hk].
  split; [done|]. split; [done|]. split; [done|].
  split; [|split; [|split; [|split; [|split]]]].
  - intros obs Hobs. pose proof (proj1 (Forall_forall _ _) Ho _ Hobs) as Hs.
    rewrite (shaped_view_flat (t_max a) (n_worker a)) //; [by apply shaped_py_init|].
    by rewrite (py_init_entry (t_max a)) //; destruct Hs.
  - by apply (shaped_view_flat (t_max a)).
  - rewrite (shaped_view_flat (t_max a) (n_worker a)) //; [by apply shaped_py_init|].
    by rewrite (py_init_entry (t_max a)) //; destruct Hret.
  - by apply (shaped_view_flat_unsliced (t_max a)).
  - by apply (shaped_view_flat (t_max a)).
  - split; [by apply states_batch_entries|].
    split; [by apply (gather_entries (t_max a))|].
    split; [by apply returns_batch_entries|].
    split; [by apply old_log_probs_batch_entries|].
    by apply (gather_entries (t_max a)).
Qed.

End AlignmentClaim.

(** ** The returns *)

Section GaeFacts.
Context {C : Collab}.

Lemma gae_rec_ext (g lam : R) (r m v r' m' v' : nat -> R) (n t : nat) :
  (forall s, t <= s < t + n -> r s = r' s /\ m s = m' s) ->
  (forall s, t <= s <= t + n -> v s = v' s) ->
  gae_rec g lam r m v n t = gae_rec g lam r' m' v' n t.
Proof.
  revert t. induction n as [|n IH]; intros t Hrm Hv; [done|].
  simpl. rewrite (IH (t + 1)).
  - intros s Hs. apply Hrm. lia.
  - intros s Hs. apply Hv. lia.
  - destruct (Hrm t ltac:(lia)) as [-> ->].
    by rewrite (Hv t ltac:(lia)) (Hv (t + 1) ltac:(lia)).
Qed.

(** One pass of the loop keeps the invariant: [gae] holds the estimates of
    step [t + 1], and [returns] is filled from step [t + 1] on. *)
Lemma gae_step_invariant (a : Agent) (b : Buffers) (g : Gae) (ret : list Row) (t : nat) :
  shaped (t_max a) (n_worker a) (rewards b) ->
  shaped (t_max a + 1) (n_worker a) (value_predictions b) ->
  shaped (t_max a) (n_worker a) (masks b) ->
  length ret = t_max a + 1 ->
  t < t_max a ->
  (forall k, k < n_worker a -> gae_value g k = Some (gae_at a b k (t + 1))) ->
  let st := gae_step a b (g, ret) t in
  (forall k, k < n_worker a -> gae_value st.1 k = Some (gae_at a b k t)) /\
  (forall k, k < n_worker a ->
     st.2 !! t ≫= (.!! k)
     = Some (gae_at a b k t + entry (value_predictions b) t k)%R) /\
  (forall s, s <> t -> st.2 !! s = ret !! s) /\
  length st.2 = t_max a + 1.
Proof.
  intros Hr Hv Hm Hlen Ht Hg st.
  assert (forall k, k < n_worker a -> gae_value st.1 k = Some (gae_at a b k t)) as Hg'.
  { intros k Hk. rewrite /st /gae_step /= /tadd /tsub /tmul /scale.
    rewrite !lookup_zip_with !list_lookup_fmap.
    rewrite (shaped_row _ _ _ _ _ Hr Ht Hk) (shaped_row _ _ _ _ _ Hm Ht Hk).
    assert (t < t_max a + 1) as Ht1 by lia.
    assert (t + 1 < t_max a + 1) as Ht2 by lia.
    rewrite (shaped_row _ _ _ _ _ Hv Ht1 Hk) (shaped_row _ _ _ _ _ Hv Ht2 Hk) /=.
    specialize (Hg k Hk). rewrite /gae_at in Hg |- *.
    replace (t_max a - t) with (S (t_max a - (t + 1))) by lia. simpl.
    destruct g as [|row]; simpl in *.
    - rewrite !list_lookup_fmap (shaped_row _ _ _ _ _ Hm Ht Hk) /=.
      injection Hg as Hg. rewrite -Hg. f_equal; lra.
    - rewrite /tmul lookup_zip_with list_lookup_fmap (shaped_row _ _ _ _ _ Hm Ht Hk) /= Hg /=.
      f_equal; lra. }
  split; [done|]. split; [|split].
  - intros k Hk. specialize (Hg' k Hk). rewrite /st /gae_step /= in Hg' |- *.
    rewrite list_lookup_insert_eq /=; [lia|].
    rewrite /tadd lookup_zip_with. rewrite /tadd in Hg'. rewrite Hg' /=.
    assert (t < t_max a + 1) as Ht1 by lia.
    by rewrite (shaped_row _ _ _ _ _ Hv Ht1 Hk).
  - intros s Hs. by rewrite /st /gae_step /= list_lookup_insert_ne.
  - by rewrite /st /gae_step /= length_insert.
Qed.

Lemma gae_fold_invariant (a : Agent) (b : Buffers) (t : nat) (g : Gae) (ret : list Row) :
  shaped (t_max a) (n_worker a) (rewards b) ->
  shaped (t_max a + 1) (n_worker a) (value_predictions b) ->
  shaped (t_max a) (n_worker a) (masks b) ->
  length ret = t_max a + 1 ->
  t <= t_max a ->
  (forall k, k < n_worker a -> gae_value g k = Some (gae_at a b k t)) ->
  let st := foldl (gae_step a b) (g, ret) (reverse (seq 0 t)) in
  (forall s k, s < t -> k < n_worker a ->
     st.2 !! s ≫= (.!! k)
     = Some (gae_at a b k s + entry (value_predictions b) s k)%R) /\
  (forall s, t <= s -> st.2 !! s = ret !! s).
Proof.
  intros Hr Hv Hm. revert g ret.
  induction t as [|t IH]; intros g ret Hlen Ht Hg st.
  - split; [intros; lia|done].
  - rewrite /st seq_S reverse_snoc /=.
    replace (t + 1) with (S t) in * by lia.
    destruct (gae_step_invariant a b g ret t Hr Hv Hm Hlen ltac:(lia)) as (G1 & G2 & G3 & G4).
    { intros k Hk. replace (t + 1) with (S t) by lia. by apply Hg. }
    destruct (gae_step a b (g, ret) t) as [g1 ret1] eqn:Hst. simpl in *.
    destruct (IH g1 ret1 G4 ltac:(lia) G1) as (I1 & I2).
    split.
    + intros s k Hs Hk. destruct (decide (s = t)) as [->|Hne].
      * rewrite I2 //. by apply G2.
      * apply I1; [lia|done].
    + intros s Hs. rewrite I2; [lia|]. apply G3. lia.
Qed.

End GaeFacts.

Section GaeClaim.
Context {C : Collab}.

Lemma gae_at_end (a : Agent) (b : Buffers) (k : nat) : gae_at a b k (t_max a) = 0%R.
Proof. by rewrite /gae_at Nat.sub_diag. Qed.

Lemma gae_at_step (a : Agent) (b : Buffers) (k t : nat) :
  t < t_max a ->
  gae_at a b k t
  = ((entry (rewards b) t k
      + gamma a * entry (value_predictions b) (t + 1) k * entry (masks b) t k
      - entry (value_predictions b) t k)
     + gamma a * gae_lambda a * entry (masks b) t k * gae_at a b k (t + 1))%R.
Proof.
  intros Ht. rewrite /gae_at.
  by replace (t_max a - t) with (S (t_max a - (t + 1))) by lia.
Qed.

(** C1. After the rollout, [value_predictions[t_max]] is set to the value the
    network gives for the final stored observations, and the returns are
    filled by the backward recursion: with [gae] zero at [t_max],
    [delta = rewards[t] + gamma * value_predictions[t+1] * masks[t]
             - value_predictions[t]],
    [gae = delta + gamma * gae_lambda * masks[t] * gae] and
    [returns[t] = gae + value_predictions[t]] for [t] from [t_max - 1] down
    to 0; hence the advantage [returns[t] - value_predictions[t]] before
    normalization is the estimate [gae] of step [t]. *)
Theorem returns_follow_gae_recursion (a : Agent) (bw : Buffers * World) (t k : nat) :
  let inputs := (fun obs : list ObsSlot => obs !!! t_max a) <$> observations bw.1 in
  let b' := (calc_returns a bw).1 in
  buffers_shaped a bw.1 ->
  length (net_forward_value (w_net bw.2) inputs) = n_worker a ->
  t < t_max a ->
  k < n_worker a ->
  value_predictions b' !! t_max a = Some (net_forward_value (w_net bw.2) inputs) /\
  gae_at a b' k (t_max a) = 0%R /\
  gae_at a b' k t
  = ((entry (rewards b') t k
      + gamma a * entry (value_predictions b') (t + 1) k * entry (masks b') t k
      - entry (value_predictions b') t k)
     + gamma a * gae_lambda a * entry (masks b') t k * gae_at a b' k (t + 1))%R /\
  returns b' !! t ≫= (.!! k)
  = Some (gae_at a b' k t + entry (value_predictions b') t k)%R /\
  raw_advantages b' !! t ≫= (.!! k) = Some (gae_at a b' k t).
Proof.
  intros inputs b' Hb Hboot Ht Hk.
  pose proof Hb as [Ho Hr Hv Hl Hret Ha Hm].
  assert ((fun obs : list ObsSlot => obs !!! py_last obs) <$> observations bw.1 = inputs)
    as Hin.
  { apply Forall_fmap_ext_1. eapply Forall_impl; [exact Ho|].
    intros obs [Hlen _]. rewrite /= /py_last Hlen. f_equal. lia. }
  set (b1 := set_value_predictions
               (<[t_max a := net_forward_value (w_net bw.2) inputs]>
                  (value_predictions bw.1)) bw.1).
  assert (shaped (t_max a + 1) (n_worker a) (value_predictions b1)) as Hv1.
  { destruct Hv as [Hv1 Hv2]. split; [by rewrite /= length_insert|].
    by apply Forall_insert. }
  assert (b' = set_returns
                 (foldl (gae_step a b1) (GaeZero, returns b1) (reverse (seq 0 (t_max a)))).2
                 b1) as Hb'.
  { rewrite /b' /calc_returns /= Hin /py_last. destruct Hv as [-> _].
    by replace (t_max a + 1 - 1) with (t_max a) by lia. }
  destruct (gae_fold_invariant a b1 (t_max a) GaeZero (returns b1) Hr Hv1 Hm)
    as (I1 & I2); [by destruct Hret|lia| |].
  { intros k' _. by rewrite gae_at_end. }
  assert (forall s, gae_at a b' k s = gae_at a b1 k s) as Hgae by (by rewrite Hb').
  assert (value_predictions b' = value_predictions b1) as Hvp by (by rewrite Hb').
  assert (returns b' !! t ≫= (.!! k)
          = Some (gae_at a b' k t + entry (value_predictions b') t k)%R) as Hret'.
  { rewrite Hgae Hvp. rewrite {1}Hb' /=. by apply I1. }
  split; [|split; [|split; [|split]]].
  - rewrite Hvp /= list_lookup_insert_eq //. destruct Hv as [-> _]. lia.
  - apply gae_at_end.
  - by apply gae_at_step.
  - done.
  - rewrite /raw_advantages lookup_zip_with.
    assert (py_init (returns b') !! t = returns b' !! t) as ->.
    { apply py_init_lookup. rewrite Hb' /= gae_fold_length /=.
      destruct Hret as [-> _]. lia. }
    assert (py_init (value_predictions b') !! t = value_predictions b' !! t) as ->.
    { apply py_init_lookup. rewrite Hvp /= length_insert.
      destruct Hv as [-> _]. lia. }
    destruct (returns b' !! t) as [rr|] eqn:Hrr; [|done]. simpl in Hret'.
    assert (t < t_max a + 1) as Ht1 by lia.
    pose proof (shaped_lookup _ _ _ t k Hv1 Ht1 Hk) as Hvl. rewrite -Hvp in Hvl.
    destruct (value_predictions b' !! t) as [rv|] eqn:Hrv; [|done]. simpl in *.
    rewrite /tsub lookup_zip_with Hret' /= Hvl /=. f_equal. lra.
Qed.

End GaeClaim.

(** ** Mean, standard deviation and the normalization *)

Section NormalizeFacts.
Local Open Scope R_scope.

Lemma Rsum_const (c : R) (l : list R) :
  (forall x, x ∈ l -> x = c) -> Rsum l = INR (length l) * c.
Proof.
  induction l as [|x l IH]; intros Hc.
  - simpl. lra.
  - change (Rsum (x :: l)) with (x + Rsum l).
    change (length (x :: l)) with (S (length l)).
    rewrite S_INR IH.
    + intros y Hy. apply Hc. by right.
    + rewrite (Hc x); [by left|]. ring.
Qed.

Lemma Rsum_squares_nonneg (m : R) (l : list R) :
  0 <= Rsum ((fun x => (x - m) * (x - m)) <$> l).
Proof.
  induction l as [|x l IH]; [simpl; lra|].
  change (0 <= (x - m) * (x - m) + Rsum ((fun x => (x - m) * (x - m)) <$> l)).
  apply Rplus_le_le_0_compat; [apply Rle_0_sqr|exact IH].
Qed.

Lemma Rsum_squares_zero (m : R) (l : list R) :
  Rsum ((fun x => (x - m) * (x - m)) <$> l) = 0 -> forall x, x ∈ l -> x = m.
Proof.
  induction l as [|y l IH]; intros Hs x Hx; [by apply elem_of_nil in Hx|].
  change ((y - m) * (y - m) + Rsum ((fun x => (x - m) * (x - m)) <$> l) = 0) in Hs.
  pose proof (Rsum_squares_nonneg m l) as Hn.
  pose proof (Rle_0_sqr (y - m)) as Hsq. rewrite /Rsqr in Hsq.
  set (S := Rsum _) in *.
  apply elem_of_cons in Hx as [->|Hx].
  - assert ((y - m) * (y - m) = 0) as Hz by lra.
    apply Rmult_integral in Hz. lra.
  - apply IH; [lra|done].
Qed.

Lemma mean_const (c : R) (l : list R) :
  l <> [] -> (forall x, x ∈ l -> x = c) -> mean l = Some c.
Proof.
  intros Hl Hc. destruct l as [|x l]; [done|].
  rewrite /mean (Rsum_const c) //. f_equal.
  assert (INR (length (x :: l)) <> 0) by (apply not_0_INR; simpl; lia).
  by field.
Qed.

(** A zero standard deviation means that every entry equals the mean. *)
Lemma std_zero_all_mean (l : list R) (m : R) :
  mean l = Some m -> std l = Some 0 -> forall x, x ∈ l -> x = m.
Proof.
  intros Hm. rewrite /std Hm. case_decide as Hlen; [done|].
  intros [= Hs]. apply Rsum_squares_zero.
  assert (0 < INR (length l - 1)) as Hpos.
  { apply lt_0_INR. destruct l as [|? [|? ?]]; simpl in *; try done; lia. }
  pose proof (Rsum_squares_nonneg m l) as Hn.
  apply sqrt_eq_0 in Hs.
  - apply Rmult_integral in Hs as [Hs|Hs]; [done|].
    pose proof (Rinv_0_lt_compat _ Hpos). lra.
  - apply Rmult_le_pos; [done|]. left. by apply Rinv_0_lt_compat.
Qed.

Lemma normalize_none_iff (adv : list (list R)) :
  normalize adv = None
  <-> (forall x y, x ∈ view_flat adv -> y ∈ view_flat adv -> x = y).
Proof.
  rewrite /normalize. set (l := view_flat adv). split.
  - destruct (mean l) as [m|] eqn:Hm.
    + destruct (std l) as [s|] eqn:Hs.
      * case_decide as Hz; [|done]. subst s. intros _ x y Hx Hy.
        by rewrite (std_zero_all_mean l m Hm Hs x) // (std_zero_all_mean l m Hm Hs y).
      * intros _ x y Hx Hy. rewrite /std Hm in Hs.
        case_decide as Hlen; [|done].
        destruct l as [|z [|? ?]]; try done.
        apply list_elem_of_singleton in Hx, Hy. by subst.
    + intros _ x y Hx. destruct l; [by apply elem_of_nil in Hx|done].
  - intros Heq. destruct l as [|x0 l'] eqn:Hl; [done|].
    assert (forall x, x ∈ x0 :: l' -> x = x0) as Hc.
    { intros x Hx. apply Heq; [done|by left]. }
    rewrite (mean_const x0) // /std (mean_const x0) //.
    case_decide as Hlen; [done|].
    assert (Rsum ((fun x => (x - x0) * (x - x0)) <$> x0 :: l') = 0) as ->.
    { rewrite (Rsum_const 0); [|lra].
      intros y [x [-> Hx]]%list_elem_of_fmap. rewrite (Hc x Hx). lra. }
    rewrite /Rdiv Rmult_0_l sqrt_0. by case_decide.
Qed.

End NormalizeFacts.

Section NormalizeClaim.
Context {C : Collab}.

(** C8. The normalization divides by the standard deviation without any
    guard: its result is defined exactly when the advantages are not all
    equal.  When they are all equal, as they are for a single advantage
    ([t_max = n_worker = 1]), every normalized advantage is undefined and
    so is the policy loss every minibatch hands to [model.update]. *)
Theorem normalization_needs_distinct_advantages (a : Agent) (b : Buffers) (w : World)
    (indices : list nat) :
  let adv := raw_advantages b in
  let l := minibatch_losses a b (normalize adv) indices (w_net w) in
  (normalize adv = None
   <-> (forall x y, x ∈ view_flat adv -> y ∈ view_flat adv -> x = y)) /\
  (forall x : R, normalize [[x]] = None) /\
  ((forall x y, x ∈ view_flat adv -> y ∈ view_flat adv -> x = y) ->
   action_loss l = None /\
   w_net (minibatch_update a b (normalize adv) w indices) = net_update (w_net w) l /\
   last (w_trace (minibatch_update a b (normalize adv) w indices)) = Some (EvUpdate l)).
Proof.
  intros adv l. split; [apply normalize_none_iff|]. split.
  - intros x. apply normalize_none_iff. simpl.
    intros y z Hy Hz. apply list_elem_of_singleton in Hy, Hz. by subst.
  - intros Heq. apply normalize_none_iff in Heq.
    split; [|split].
    + by rewrite /l /minibatch_losses /= Heq.
    + done.
    + rewrite /minibatch_update /=. fold l.
      by rewrite last_app.
Qed.

End NormalizeClaim.

(** ** The losses of a minibatch *)

Section LossFacts.
Context {C : Collab}.
Local Open Scope R_scope.

Lemma mean_nonempty (l : list R) :
  l <> [] -> mean l = Some (Rsum l / INR (length l)).
Proof. by destruct l. Qed.

Lemma surrogate_terms (eps : R) (fo fa : nat -> R) (lp : list R) (indices : list nat) :
  zip_with Rmin
    (tmul (exp <$> tsub lp (fo <$> indices)) (fa <$> indices))
    (tmul (clamp (1 - eps) (1 + eps) <$> (exp <$> tsub lp (fo <$> indices)))
          (fa <$> indices))
  = zip_with (fun l i => clipped_surrogate eps l (fo i) (fa i)) lp indices.
Proof.
  revert indices. induction lp as [|l lp IH]; intros [|i indices]; try done.
  simpl. f_equal. apply IH.
Qed.

Lemma squared_error_terms (fr : nat -> R) (indices : list nat) (values : list R) :
  (fun x => x * x) <$> tsub (fr <$> indices) values
  = zip_with (fun i v => (fr i - v) * (fr i - v)) indices values.
Proof.
  revert values. induction indices as [|i indices IH]; intros [|v values]; try done.
  simpl. f_equal. apply IH.
Qed.

Lemma zip_with_ext_indices {A B} (f g : A -> nat -> B) (P : nat -> Prop)
    (l : list A) (indices : list nat) :
  Forall P indices -> (forall x i, P i -> f x i = g x i) ->
  zip_with f l indices = zip_with g l indices.
Proof.
  intros Hi Hfg. revert l. induction Hi as [|i indices Hp _ IH]; intros [|x l]; try done.
  simpl. f_equal; [by apply Hfg|apply IH].
Qed.

Lemma raw_advantages_shaped (a : Agent) (b : Buffers) :
  buffers_shaped a b -> shaped (t_max a) (n_worker a) (raw_advantages b).
Proof.
  intros [_ _ Hv _ Hret _ _].
  apply shaped_py_init in Hv as [Hv1 Hv2], Hret as [Hr1 Hr2].
  rewrite /raw_advantages. split.
  - rewrite length_zip_with. lia.
  - apply Forall_lookup. intros t row. rewrite lookup_zip_with.
    destruct (py_init (returns b) !! t) as [r|] eqn:Hr; [|done].
    destruct (py_init (value_predictions b) !! t) as [v|] eqn:Hvv; [|done].
    intros [= <-]. rewrite /tsub length_zip_with.
    rewrite (proj1 (Forall_lookup _ _) Hr2 _ _ Hr).
    rewrite (proj1 (Forall_lookup _ _) Hv2 _ _ Hvv). lia.
Qed.

Lemma normalize_entries (k n : nat) (raw adv : list (list R)) :
  shaped k n raw -> normalize raw = Some adv ->
  exists m s,
    mean (view_flat raw) = Some m /\ std (view_flat raw) = Some s /\ s <> 0 /\
    shaped k n adv /\
    forall t w, (t < k)%nat -> (w < n)%nat ->
      entry adv t w = (entry raw t w - m) / s.
Proof.
  intros Hraw. rewrite /normalize.
  destruct (mean _) as [m|]; [|done]. destruct (std _) as [s|]; [|done].
  case_decide as Hs; [done|]. intros [= <-].
  exists m, s. repeat split; try done.
  - rewrite length_fmap. by destruct Hraw.
  - destruct Hraw as [_ Hn]. apply Forall_fmap.
    eapply Forall_impl; [exact Hn|]. intros row Hrow. by rewrite /= length_fmap.
  - intros t w Ht Hw. rewrite /entry.
    pose proof (shaped_row_length k n raw t Hraw Ht) as Hlen.
    destruct Hraw as [Hk _].
    rewrite list_lookup_total_fmap; [lia|].
    rewrite list_lookup_total_fmap //. lia.
Qed.

End LossFacts.

Section LossClaims.
Context {C : Collab}.
Local Open Scope R_scope.

(** C2. For a minibatch, the policy loss handed to [model.update] is minus
    the mean over the minibatch of
    [min (ratio * A, clamp (ratio, 1 - epsilon, 1 + epsilon) * A)], where
    [ratio] is the exponential of the current log-probability of the stored
    action minus the log-probability stored for the same step and worker
    during the rollout, and [A] is the advantage of that step and worker
    minus the mean, divided by the standard deviation, of all advantages. *)
Theorem policy_loss_is_clipped_surrogate (a : Agent) (b : Buffers) (w : World)
    (indices : list nat) (adv : list (list R)) :
  let n := n_worker a in
  let pv := net_forward (w_net w) (states_batch b indices) in
  let lp := get_log_probs pv.1 ((fun i => entry (actions b) (i / n) (i mod n)) <$> indices) in
  let l := minibatch_losses a b (Some adv) indices (w_net w) in
  buffers_shaped a b ->
  normalize (raw_advantages b) = Some adv ->
  indices <> [] ->
  Forall (fun i => (i < n_worker a * t_max a)%nat) indices ->
  length pv.1 = length indices ->
  exists m s,
    mean (view_flat (raw_advantages b)) = Some m /\
    std (view_flat (raw_advantages b)) = Some s /\
    s <> 0 /\
    w_net (minibatch_update a b (Some adv) w indices) = net_update (w_net w) l /\
    action_loss l
    = Some (- (Rsum (zip_with
                       (fun lpj i =>
                          clipped_surrogate (epsilon a) lpj
                            (entry (old_log_probs b) (i / n) (i mod n))
                            ((entry (raw_advantages b) (i / n) (i mod n) - m) / s))
                       lp indices)
               / INR (length indices))).
Proof.
  intros n pv lp l Hb Hnorm Hne Hi Hlen.
  pose proof (raw_advantages_shaped a b Hb) as Hraw.
  destruct (normalize_entries _ _ _ _ Hraw Hnorm) as (m & s & Hm & Hs & Hs0 & Hadv & He).
  exists m, s. split; [done|]. split; [done|]. split; [done|]. split; [done|].
  rewrite /l /minibatch_losses /= /surrogate_loss.
  rewrite (gather_entries (t_max a) (n_worker a) (actions b)) //; [by destruct Hb|].
  rewrite (old_log_probs_batch_entries a) //.
  rewrite (gather_entries (t_max a) (n_worker a) adv) //.
  rewrite -/n -/pv -/lp surrogate_terms.
  assert (length lp = length indices) as Hlp.
  { rewrite /lp /get_log_probs length_zip_with length_fmap Hlen. lia. }
  rewrite mean_nonempty.
  { intros Hnil. apply (f_equal length) in Hnil.
    rewrite length_zip_with Hlp /= in Hnil. destruct indices; [done|simpl in *; lia]. }
  simpl. do 2 f_equal. rewrite length_zip_with Hlp Nat.min_id. f_equal. f_equal.
  apply (zip_with_ext_indices _ _ _ _ _ Hi).
  intros x i Hlt. destruct (flat_index_in_range _ _ _ Hlt) as [Ht Hk].
  by rewrite He.
Qed.

(** C5. For a minibatch, the value loss is the mean over the minibatch of
    the squared difference between the stored return of the sampled step
    and worker and the value the network now predicts for that sample; it
    is handed to [model.update] in one call, with the policy loss and the
    entropy of the current policy. *)
Theorem value_loss_is_mean_squared_error (a : Agent) (b : Buffers) (w : World)
    (advantages : option (list (list R))) (indices : list nat) :
  let n := n_worker a in
  let pv := net_forward (w_net w) (states_batch b indices) in
  let l := minibatch_losses a b advantages indices (w_net w) in
  buffers_shaped a b ->
  indices <> [] ->
  Forall (fun i => (i < n_worker a * t_max a)%nat) indices ->
  length pv.2 = length indices ->
  value_loss l
  = Some (Rsum (zip_with
                  (fun i v => (entry (returns b) (i / n) (i mod n) - v)
                              * (entry (returns b) (i / n) (i mod n) - v))
                  indices pv.2)
          / INR (length indices)) /\
  dist_entropy l = calc_entropy pv.1 /\
  action_loss l
  = (adv ← advantages;
     surrogate_loss (epsilon a)
       (exp <$> tsub (get_log_probs pv.1 (gather (view_flat (actions b)) indices))
                     (gather (view_flat (old_log_probs b)) indices))
       (gather (view_flat adv) indices)) /\
  w_net (minibatch_update a b advantages w indices) = net_update (w_net w) l /\
  last (w_trace (minibatch_update a b advantages w indices)) = Some (EvUpdate l).
Proof.
  intros n pv l Hb Hne Hi Hlen.
  split; [|split; [done|split; [done|split; [done|]]]].
  - rewrite /l /minibatch_losses /= (returns_batch_entries a) // -/n -/pv.
    rewrite squared_error_terms mean_nonempty.
    { intros Hnil. apply (f_equal length) in Hnil.
      rewrite length_zip_with Hlen /= in Hnil. destruct indices; [done|simpl in *; lia]. }
    by rewrite length_zip_with Hlen Nat.min_id.
  - by rewrite /minibatch_update /= last_app.
Qed.

End LossClaims.

(** ** The shapes are an invariant of the loop *)

Section ShapeInvariant.
Context {C : Collab}.
Variable a : Agent.
Hypothesis Hc : collab_shaped a.

Lemma shaped_insert {A} (k n i : nat) (row : list A) (x : list (list A)) :
  shaped k n x -> length row = n -> shaped k n (<[i := row]> x).
Proof.
  intros [Hk Hn] Hrow. split; [by rewrite length_insert|by apply Forall_insert].
Qed.

Lemma shaped_inputs (obs : list (list ObsSlot)) (t : nat) :
  Forall (shaped (t_max a + 1) (n_worker a)) obs -> t <= t_max a ->
  Forall (fun o => length o = n_worker a) ((fun o : list ObsSlot => o !!! t) <$> obs).
Proof.
  intros Ho Ht. apply Forall_fmap. eapply Forall_impl; [exact Ho|].
  intros o Hs. simpl. apply (shaped_row_length (t_max a + 1)); [done|lia].
Qed.

Lemma step_data_shaped (b : Buffers) (w : World) (step : nat) :
  buffers_shaped a b -> observations b <> [] -> step <= t_max a ->
  let d := step_data b w step in
  length (sd_value d) = n_worker a /\
  length (sd_actions d) = n_worker a /\
  length (sd_log_probs d) = n_worker a /\
  Forall (fun o => length o = n_worker a) (sd_state d) /\
  length (sd_reward d) = n_worker a /\
  length (sd_done d) = n_worker a.
Proof.
  intros Hb Hne Hs d. destruct Hb as [Ho _ _ _ _ _ _].
  pose proof (shaped_inputs _ step Ho Hs) as Hin.
  destruct (cs_forward a Hc (w_net w)
              ((fun o : list ObsSlot => o !!! step) <$> observations b) (n_worker a))
    as [Hp Hv]; [by destruct (observations b)|exact Hin|].
  assert (length (sd_actions d) = n_worker a) as Ha.
  { by rewrite /d /step_data /= /sample_action (cs_multinomial a Hc) length_fmap. }
  destruct (cs_step a Hc (w_env w) (sd_actions d)) as (Hst & Hr & Hd).
  repeat split; try done.
  rewrite /d /step_data /= /get_log_probs length_zip_with Hp.
  rewrite /d /step_data /= in Ha. rewrite Ha. lia.
Qed.

Lemma rollout_step_shaped (bw : Buffers * World) (step : nat) :
  buffers_shaped a bw.1 -> observations bw.1 <> [] -> step <= t_max a ->
  buffers_shaped a (rollout_step bw step).1.
Proof.
  intros Hb Hne Hs.
  destruct (step_data_shaped bw.1 bw.2 step Hb Hne Hs) as (Hv & Ha & Hl & Hst & Hr & Hd).
  destruct Hb as [Ho Hrw Hvp Hlp Hret Hac Hm]. split.
  - rewrite rollout_step_observations. apply Forall_lookup. intros j o.
    rewrite store_obs_lookup list_lookup_fmap.
    destruct (sd_state _ !! j) as [st|] eqn:Hj; simpl; intros Hoj.
    + apply fmap_Some in Hoj as (o' & Hoj & ->).
      apply shaped_insert; [by eapply (proj1 (Forall_lookup _ _) Ho)|].
      rewrite /mask_state length_zip_with /np_masks length_fmap Hd.
      rewrite (proj1 (Forall_lookup _ _) Hst _ _ Hj). lia.
    + by eapply (proj1 (Forall_lookup _ _) Ho).
  - rewrite rollout_step_rewards. by apply shaped_insert.
  - rewrite rollout_step_value_predictions. by apply shaped_insert.
  - rewrite rollout_step_old_log_probs. by apply shaped_insert.
  - by rewrite rollout_step_returns.
  - rewrite rollout_step_actions. by apply shaped_insert.
  - rewrite rollout_step_masks. apply shaped_insert; [done|].
    by rewrite /np_masks length_fmap.
Qed.

Lemma rollout_prefix_shaped (bw : Buffers * World) (n : nat) :
  buffers_shaped a bw.1 -> observations bw.1 <> [] -> n <= t_max a ->
  buffers_shaped a (rollout_prefix bw n).1.
Proof.
  intros Hb Hne. induction n as [|n IH]; intros Hn; [done|].
  rewrite rollout_prefix_S. apply rollout_step_shaped; [apply IH; lia| |lia].
  intros Hnil. apply (f_equal length) in Hnil.
  rewrite rollout_prefix_observations_length in Hnil. by destruct (observations bw.1).
Qed.

Lemma gae_fold_shaped (b : Buffers) (l : list nat) (g : Gae) (ret : list (list R)) :
  shaped (t_max a) (n_worker a) (rewards b) ->
  shaped (t_max a + 1) (n_worker a) (value_predictions b) ->
  shaped (t_max a) (n_worker a) (masks b) ->
  Forall (fun t => t < t_max a) l ->
  shaped (t_max a + 1) (n_worker a) ret ->
  (forall row, g = GaeTensor row -> length row = n_worker a) ->
  shaped (t_max a + 1) (n_worker a) (foldl (gae_step a b) (g, ret) l).2.
Proof.
  intros Hr Hv Hm Hl. revert g ret.
  induction Hl as [|t l Ht _ IH]; intros g ret Hret Hg; [done|].
  simpl. rewrite /gae_step /=.
  assert (t < t_max a + 1) as Ht1 by lia.
  assert (t + 1 < t_max a + 1) as Ht2 by lia.
  pose proof (shaped_row_length _ _ _ t Hr Ht) as L1.
  pose proof (shaped_row_length _ _ _ t Hm Ht) as L2.
  pose proof (shaped_row_length _ _ _ t Hv Ht1) as L3.
  pose proof (shaped_row_length _ _ _ (t + 1) Hv Ht2) as L4.
  match goal with |- context [GaeTensor ?row] =>
    assert (length row = n_worker a) as Hrow end.
  { rewrite /tadd /tsub /tmul /scale !length_zip_with !length_fmap L1 L2 L3 L4.
    destruct g as [|row]; simpl.
    - rewrite !length_fmap L2. lia.
    - rewrite /tmul length_zip_with length_fmap L2 (Hg row eq_refl). lia. }
  apply IH.
  - apply shaped_insert; [done|].
    rewrite {1}/tadd length_zip_with Hrow L3. lia.
  - by intros row [= <-].
Qed.

Lemma calc_returns_shaped (bw : Buffers * World) :
  buffers_shaped a bw.1 -> observations bw.1 <> [] ->
  buffers_shaped a (calc_returns a bw).1.
Proof.
  intros Hb Hne. pose proof Hb as [Ho Hrw Hvp Hlp Hret Hac Hm].
  assert (shaped (t_max a + 1) (n_worker a) (value_predictions (calc_returns a bw).1))
    as Hvp'.
  { rewrite /calc_returns /=. apply shaped_insert; [done|].
    apply (cs_forward_value a Hc); [by destruct (observations bw.1)|].
    apply Forall_fmap. eapply Forall_impl; [exact Ho|]. intros o Hs. simpl.
    apply (shaped_row_length (t_max a + 1)); [done|].
    destruct Hs as [Hlen _]. rewrite /py_last Hlen. lia. }
  split; try done.
  rewrite /calc_returns /=. apply gae_fold_shaped; try done.
  apply Forall_forall. intros t Ht.
  apply elem_of_reverse, elem_of_seq in Ht. lia.
Qed.

Lemma save_latest_state_shaped (b : Buffers) :
  buffers_shaped a b -> buffers_shaped a (save_latest_state b).
Proof.
  intros [Ho Hrw Hvp Hlp Hret Hac Hm]. split; try done.
  rewrite /=. apply Forall_fmap. eapply Forall_impl; [exact Ho|].
  intros o Hs. simpl. apply shaped_insert; [done|].
  apply (shaped_row_length (t_max a + 1)); [done|].
  destruct Hs as [Hlen _]. rewrite /py_last Hlen. lia.
Qed.

Lemma update_phase_shaped (st : LoopState) :
  buffers_shaped a (ls_buffers st) -> observations (ls_buffers st) <> [] ->
  buffers_shaped a (ls_buffers (update_phase a st)) /\
  observations (ls_buffers (update_phase a st)) <> [].
Proof.
  intros Hb Hne.
  assert (observations (rollout a (ls_buffers st, ls_world st)).1 <> []) as Hne1.
  { intros Hnil. apply (f_equal length) in Hnil.
    rewrite /rollout -/(rollout_prefix _ (t_max a)) rollout_prefix_observations_length
      in Hnil.
    simpl in Hnil. by destruct (observations (ls_buffers st)). }
  split.
  - rewrite update_phase_buffers.
    apply save_latest_state_shaped, calc_returns_shaped; [|done].
    by apply (rollout_prefix_shaped _ (t_max a)).
  - rewrite update_phase_buffers. intros Hnil. apply Hne1.
    apply (f_equal length) in Hnil. rewrite /= length_fmap in Hnil.
    by apply nil_length_inv.
Qed.

Lemma train_init_shaped (ev : option Evaluator) (sch : option Scheduler) (w : World) :
  buffers_shaped a (ls_buffers (train_init a ev sch w)) /\
  observations (ls_buffers (train_init a ev sch w)) <> [].
Proof.
  split.
  - split; rewrite /= /zeros;
      try (split; [by rewrite length_replicate|];
           apply Forall_replicate; by rewrite length_replicate).
    apply Forall_lookup. intros j o. rewrite store_obs_lookup list_lookup_fmap.
    assert (forall sz, shaped (t_max a + 1) (n_worker a)
              (replicate (t_max a + 1) (replicate (n_worker a) (replicate sz (ObsFin 0)))))
      as Hz.
    { intros sz. split; [by rewrite length_replicate|].
      apply Forall_replicate. by rewrite length_replicate. }
    destruct ((env_reset (w_env w)).1 !! j) as [s0|] eqn:Hj;
      destruct (env_obs_sizes (w_env w) !! j) as [sz|]; simpl; try done;
      intros [= <-]; [|done].
    apply shaped_insert; [done|].
    apply (proj1 (Forall_lookup _ _) (cs_reset a Hc (w_env w)) _ _ Hj).
  - rewrite /=. intros Hnil. apply (f_equal length) in Hnil.
    rewrite store_obs_length length_fmap /= in Hnil.
    pose proof (cs_spaces a Hc (w_env w)). by destruct (env_obs_sizes (w_env w)).
Qed.

(** In a minibatch the network is asked about one row per sampled index. *)
Lemma minibatch_forward_rows (b : Buffers) (net : Net) (indices : list nat) :
  observations b <> [] ->
  length (net_forward net (states_batch b indices)).1 = length indices /\
  length (net_forward net (states_batch b indices)).2 = length indices.
Proof.
  intros Hne. apply (cs_forward a Hc).
  - rewrite /states_batch. by destruct (observations b).
  - rewrite /states_batch. apply Forall_fmap, Forall_forall.
    intros obs _. by rewrite /= /gather length_fmap.
Qed.

(** After the rollout the buffers are well shaped, and the bootstrap value
    has one entry per worker. *)
Lemma rollout_shaped_bootstrap (bw : Buffers * World) :
  buffers_shaped a bw.1 -> observations bw.1 <> [] ->
  buffers_shaped a (rollout a bw).1 /\
  length (net_forward_value (w_net (rollout a bw).2)
            ((fun obs : list ObsSlot => obs !!! t_max a)
               <$> observations (rollout a bw).1))
  = n_worker a.
Proof.
  intros Hb Hne.
  pose proof (rollout_prefix_shaped bw (t_max a) Hb Hne (Nat.le_refl _)) as Hb1.
  rewrite -/(rollout a bw) in Hb1. split; [done|].
  apply (cs_forward_value a Hc).
  - intros Hnil. apply fmap_nil_inv in Hnil. apply (f_equal length) in Hnil.
    rewrite /rollout -/(rollout_prefix bw (t_max a))
      rollout_prefix_observations_length in Hnil.
    by destruct (observations bw.1).
  - destruct Hb1 as [Ho _ _ _ _ _ _]. by apply shaped_inputs.
Qed.

(** Every state the loop reaches has well-shaped buffers. *)
Lemma train_loop_shaped (args : TrainArgs) (l : list nat) (st : LoopState) :
  buffers_shaped a (ls_buffers st) -> observations (ls_buffers st) <> [] ->
  buffers_shaped a (ls_buffers (train_loop a args l st).1) /\
  observations (ls_buffers (train_loop a args l st).1) <> [].
Proof.
  revert st. induction l as [|i l IH]; intros st Hb Hne; [done|].
  simpl. destruct (update_phase_shaped st Hb Hne) as [Hb1 Hne1].
  destruct (train_iteration_spec a args i st) as (Hbuf & _).
  rewrite -update_phase_buffers in Hbuf.
  destruct (train_iteration a args i st) as [st1 [|]]; simpl in *.
  - by rewrite Hbuf.
  - apply IH; by rewrite Hbuf.
Qed.

End ShapeInvariant.

(** ** The theorems at the concrete instance *)

Section Instances.
#[local] Existing Instance Toy.collab.

Lemma toy_randperm : randperm_spec.
Proof. intros rng n. reflexivity. Qed.

Lemma toy_buffers_shaped : buffers_shaped Toy.agent Toy.buffers.
Proof. split; repeat constructor. Qed.

Lemma toy_collab_shaped : collab_shaped Toy.agent.
Proof.
  split.
  - done.
  - intros e. repeat constructor.
  - intros e acts. repeat constructor.
  - intros net [|i0 inputs] k Hne Hk; [done|].
    inversion Hk as [|? ? Hi0 _]; subst. by rewrite /= !length_replicate.
  - intros net [|i0 inputs] k Hne Hk; [done|].
    inversion Hk as [|? ? Hi0 _]; subst. by rewrite /= !length_replicate.
  - intros rng probs. by rewrite /= length_fmap.
Qed.

Example batch_sampler_keeps_last :
  batch_sampler 2 false [] [3; 1; 0; 2; 4] = [[3; 1]; [0; 2]; [4]].
Proof. reflexivity. Qed.

Example batch_sampler_drops_last :
  batch_sampler 2 true [] [3; 1; 0; 2; 4] = [[3; 1]; [0; 2]].
Proof. reflexivity. Qed.

Example toy_epoch_batches :
  (epoch_batches Toy.agent (w_rng Toy.world)).1 = [[0; 1]; [2; 3]].
Proof. reflexivity. Qed.

Example toy_states_batch :
  states_batch Toy.buffers [0; 3] = [[[ObsFin 1]; [ObsFin 4]]].
Proof. reflexivity. Qed.

Example toy_returns :
  entry (returns (calc_returns Toy.agent (Toy.buffers, Toy.world)).1) 0 1 = 1%R.
Proof. rewrite /entry /=. lra. Qed.

Example toy_rollout_step_masks :
  masks (rollout_step (ls_buffers Toy.state, ls_world Toy.state) 0).1
  = [[1; 0]; [0; 0]]%R.
Proof. reflexivity. Qed.

Example toy_rollout_trace :
  count is_env_step
    (w_trace (rollout Toy.agent (ls_buffers Toy.state, ls_world Toy.state)).2) = 2.
Proof. reflexivity. Qed.

Lemma returns_follow_gae_recursion_witness :
  buffers_shaped Toy.agent Toy.buffers /\
  raw_advantages (calc_returns Toy.agent (Toy.buffers, Toy.world)).1 !! 0 ≫= (.!! 1)
  = Some (gae_at Toy.agent (calc_returns Toy.agent (Toy.buffers, Toy.world)).1 1 0).
Proof.
  split; [exact toy_buffers_shaped|].
  apply (returns_follow_gae_recursion Toy.agent (Toy.buffers, Toy.world) 0 1).
  - exact toy_buffers_shaped.
  - reflexivity.
  - simpl; lia.
  - simpl; lia.
Defined.

Lemma toy_normalize_defined :
  exists adv, normalize (raw_advantages Toy.buffers) = Some adv.
Proof.
  destruct (normalize (raw_advantages Toy.buffers)) as [adv|] eqn:Hn; [by exists adv|].
  exfalso. pose proof (proj1 (normalize_none_iff _) Hn (1 - 0)%R (2 - 0)%R) as Heq.
  assert ((1 - 0)%R = (2 - 0)%R) as Hbad; [|lra].
  apply Heq; [by left|by right; left].
Qed.

Lemma policy_loss_is_clipped_surrogate_witness :
  exists adv m s,
    normalize (raw_advantages Toy.buffers) = Some adv /\
    mean (view_flat (raw_advantages Toy.buffers)) = Some m /\
    std (view_flat (raw_advantages Toy.buffers)) = Some s /\
    s <> 0%R /\
    w_net (minibatch_update Toy.agent Toy.buffers (Some adv) Toy.world [0; 3])
    = net_update (w_net Toy.world)
        (minibatch_losses Toy.agent Toy.buffers (Some adv) [0; 3] (w_net Toy.world)).
Proof.
  destruct toy_normalize_defined as [adv Hadv].
  destruct (policy_loss_is_clipped_surrogate Toy.agent Toy.buffers Toy.world [0; 3] adv)
    as (m & s & Hm & Hs & Hs0 & Hnet & _).
  - exact toy_buffers_shaped.
  - exact Hadv.
  - discriminate.
  - repeat constructor.
  - reflexivity.
  - by exists adv, m, s.
Defined.



Lemma value_loss_is_mean_squared_error_witness :
  [0; 3] <> [] /\
  dist_entropy (minibatch_losses Toy.agent Toy.buffers None [0; 3] (w_net Toy.world))
  = calc_entropy (net_forward (w_net Toy.world) (states_batch Toy.buffers [0; 3])).1.
Proof.
  split; [discriminate|].
  apply (value_loss_is_mean_squared_error Toy.agent Toy.buffers Toy.world None [0; 3]).
  - exact toy_buffers_shaped.
  - discriminate.
  - repeat constructor.
  - reflexivity.
Defined.

Lemma training_is_one_trajectory_witness :
  (train_loop Toy.agent Toy.args (seq 1 0) Toy.state).2 = None /\
  count is_reset
    (w_trace (ls_world (train Toy.agent Toy.args Toy.evaluator Toy.lr_scheduler Toy.world).1))
  = count is_reset (w_trace Toy.world) + 1.
Proof.
  split; [reflexivity|].
  apply (training_is_one_trajectory Toy.agent Toy.args Toy.evaluator Toy.lr_scheduler
           Toy.world 0).
  reflexivity.
Defined.


Lemma minibatch_alignment_witness :
  [2; 3] ∈ (epoch_batches Toy.agent (w_rng Toy.world)).1 /\
  view_flat (old_log_probs Toy.buffers) !! 3
  = Some (entry (old_log_probs Toy.buffers) (3 / 2) (3 mod 2)) /\
  3 / 2 <> t_max Toy.agent.
Proof.
  assert ([2; 3] ∈ (epoch_batches Toy.agent (w_rng Toy.world)).1) as Hin.
  { apply list_elem_of_lookup. by exists 1. }
  split; [exact Hin|].
  apply (minibatch_alignment Toy.agent Toy.buffers [[0; 0]; [0; 0]]%R (w_rng Toy.world)
           [2; 3] 3).
  - exact toy_randperm.
  - exact toy_buffers_shaped.
  - split; repeat constructor.
  - exact Hin.
  - by right; left.
Defined.


Lemma toy_pass_without_evaluation (i : nat) (st : LoopState) :
  i mod 2 <> 0 -> (train_iteration Toy.agent Toy.args i st).2 = false.
Proof.
  intros Hi. rewrite /train_iteration /evaluation.
  destruct (ls_evaluator (update_phase Toy.agent st)); [|done].
  by case_decide.
Qed.

Lemma toy_pass_breaks (i : nat) (st : LoopState) :
  i mod 2 = 0 -> ls_evaluator st = Some tt -> ls_scheduler st = Some tt ->
  (train_iteration Toy.agent Toy.args i st).2 = true.
Proof.
  intros Hi He Hs. rewrite /train_iteration /evaluation.
  change (ls_evaluator (update_phase Toy.agent st)) with (ls_evaluator st).
  change (ls_scheduler (update_phase Toy.agent st)) with (ls_scheduler st).
  rewrite He Hs. case_decide; [|done]. cbn -[update_phase].
  case_decide as Hlr; [done|]. by destruct Hlr.
Qed.

(** At the concrete instance the scheduler sets the learning rate to zero at
    the first evaluation, pass 2, and the loop breaks there. *)
Example toy_train_breaks :
  (train Toy.agent Toy.args Toy.evaluator Toy.lr_scheduler Toy.world).2 = Some 2.
Proof.
  change (train Toy.agent Toy.args Toy.evaluator Toy.lr_scheduler Toy.world)
    with (train_loop Toy.agent Toy.args [1; 2; 3] Toy.state).
  rewrite (train_loop_app _ _ [1] [2; 3]).
  cbn [train_loop]. rewrite toy_pass_without_evaluation; [done|].
  cbn [fst snd train_loop].
  by rewrite toy_pass_breaks.
Qed.

End Instances.

(** ** An environment that returns an infinite observation *)

Section NonFiniteInstance.
#[local] Existing Instance ToyInf.collab.


End NonFiniteInstance.

(** ** Further properties: probabilities, log-probabilities, entropy *)

Section PolicyFacts.
Context {C : Collab}.
Local Open Scope R_scope.

Lemma Rsum_exp_ge (row : list R) (x : R) :
  x ∈ row -> exp x <= Rsum (exp <$> row).
Proof.
  induction row as [|y row IH]; intros Hx; [by apply elem_of_nil in Hx|].
  change (exp x <= exp y + Rsum (exp <$> row)).
  assert (0 <= Rsum (exp <$> row)) as Hpos.
  { clear. induction row as [|z row IH]; [simpl; lra|].
    change (0 <= exp z + Rsum (exp <$> row)). pose proof (exp_pos z). lra. }
  apply elem_of_cons in Hx as [->|Hx].
  - lra.
  - pose proof (exp_pos y). specialize (IH Hx). lra.
Qed.

Lemma Rsum_exp_pos (row : list R) : row <> [] -> 0 < Rsum (exp <$> row).
Proof.
  destruct row as [|x row]; [done|]. intros _.
  pose proof (Rsum_exp_ge (x :: row) x ltac:(by left)). pose proof (exp_pos x). lra.
Qed.

Lemma Rsum_div (f : R -> R) (z : R) (l : list R) :
  Rsum ((fun x => f x / z) <$> l) = Rsum (f <$> l) / z.
Proof.
  induction l as [|x l IH]; [rewrite /= /Rdiv; lra|].
  change (f x / z + Rsum ((fun x => f x / z) <$> l) = (f x + Rsum (f <$> l)) / z).
  rewrite IH /Rdiv. lra.
Qed.

Lemma softmax_entry (row : list R) (x : R) :
  x ∈ row -> 0 < exp x / Rsum (exp <$> row) <= 1.
Proof.
  intros Hx. pose proof (Rsum_exp_ge row x Hx) as Hle. pose proof (exp_pos x) as Hp.
  assert (0 < Rsum (exp <$> row)) as Hz by lra.
  split.
  - by apply Rdiv_lt_0_compat.
  - apply (Rmult_le_reg_r (Rsum (exp <$> row))); [done|].
    rewrite /Rdiv Rmult_assoc Rinv_l; lra.
Qed.

(** [log_softmax] is the logarithm of [softmax], entry by entry. *)
Lemma log_softmax_entry (row : list R) (x : R) :
  x ∈ row -> x - ln (Rsum (exp <$> row)) = ln (exp x / Rsum (exp <$> row)).
Proof.
  intros Hx. pose proof (Rsum_exp_ge row x Hx) as Hle. pose proof (exp_pos x) as Hp.
  assert (0 < Rsum (exp <$> row)) as Hz by lra.
  rewrite /Rdiv ln_mult; [done|by apply Rinv_0_lt_compat|].
  rewrite ln_exp ln_Rinv //.
Qed.

Lemma Rsum_nonpos (l : list R) : (forall x, x ∈ l -> x <= 0) -> Rsum l <= 0.
Proof.
  induction l as [|x l IH]; intros Hl; [simpl; lra|].
  change (x + Rsum l <= 0).
  pose proof (Hl x ltac:(by left)). pose proof (IH (fun y Hy => Hl y ltac:(by right))).
  lra.
Qed.

Lemma Rsum_nonneg (l : list R) : (forall x, x ∈ l -> 0 <= x) -> 0 <= Rsum l.
Proof.
  induction l as [|x l IH]; intros Hl; [simpl; lra|].
  change (0 <= x + Rsum l).
  pose proof (Hl x ltac:(by left)). pose proof (IH (fun y Hy => Hl y ltac:(by right))).
  lra.
Qed.

Lemma tmul_fmap_same (f g : R -> R) (row : list R) :
  tmul (f <$> row) (g <$> row) = (fun x => f x * g x) <$> row.
Proof. induction row as [|x row IH]; [done|]. simpl. f_equal. exact IH. Qed.

Lemma row_entropy_term_nonpos (row : list R) :
  Rsum (tmul (log_softmax row) (softmax row)) <= 0.
Proof.
  rewrite /log_softmax /softmax tmul_fmap_same. apply Rsum_nonpos.
  intros y [x [-> Hx]]%list_elem_of_fmap.
  destruct (softmax_entry row x Hx) as [Hp H1].
  rewrite (log_softmax_entry row x Hx).
  assert (ln (exp x / Rsum (exp <$> row)) <= 0) as Hln.
  { rewrite -ln_1. destruct H1 as [H1|H1]; [left; by apply ln_increasing|].
    rewrite H1. lra. }
  nra.
Qed.

(** X1. [_sample_action]: what is handed to [multinomial] is, row by row, a
    probability distribution: entries in (0, 1] that sum to one. *)
Theorem sampled_from_distributions (rng : Rng) (policy : list (list R)) :
  Forall (fun row => row <> []) policy ->
  exists probs,
    sample_action rng policy = multinomial rng probs /\
    length probs = length policy /\
    Forall (fun p => Forall (fun x => 0 < x <= 1) p /\ Rsum p = 1) probs.
Proof.
  intros Hne. exists (softmax <$> policy).
  split; [done|]. split; [by rewrite length_fmap|].
  apply Forall_fmap. eapply Forall_impl; [exact Hne|]. intros row Hrow. simpl. split.
  - rewrite /softmax. apply Forall_fmap, Forall_forall. intros x Hx.
    by apply softmax_entry.
  - rewrite /softmax (Rsum_div exp). pose proof (Rsum_exp_pos row Hrow).
    by field_simplify_eq; [|lra].
Qed.

(** X2. [_get_log_probs]: the entry for a sample is the logarithm of the
    probability [softmax] gives to its action, hence not positive. *)
Theorem log_prob_is_log_of_probability (policy : list (list R)) (acts : list nat)
    (j a : nat) (row : list R) :
  policy !! j = Some row -> acts !! j = Some a -> (a < length row)%nat ->
  exists p,
    softmax row !! a = Some p /\ 0 < p <= 1 /\
    get_log_probs policy acts !! j = Some (ln p) /\ ln p <= 0.
Proof.
  intros Hrow Ha Hlt.
  destruct (lookup_lt_is_Some_2 row a Hlt) as [x Hx].
  assert (x ∈ row) as Hin by (by eapply list_elem_of_lookup_2).
  destruct (softmax_entry row x Hin) as [Hp H1].
  exists (exp x / Rsum (exp <$> row)). split; [|split; [done|split]].
  - by rewrite /softmax list_lookup_fmap Hx.
  - rewrite /get_log_probs lookup_zip_with Hrow /= Ha /=. f_equal.
    rewrite /log_softmax list_lookup_total_fmap //.
    rewrite (list_lookup_total_correct _ _ _ Hx). by apply log_softmax_entry.
  - rewrite -ln_1. destruct H1 as [H1|H1]; [left; by apply ln_increasing|].
    rewrite H1. lra.
Qed.

Lemma mean_sign (l : list R) (m : R) :
  mean l = Some m ->
  ((forall x, x ∈ l -> x <= 0) -> m <= 0) /\ ((forall x, x ∈ l -> 0 <= x) -> 0 <= m).
Proof.
  intros Hm. assert (l <> []) as Hne by (by destruct l).
  rewrite (mean_nonempty l Hne) in Hm. injection Hm as <-.
  assert (0 < INR (length l)) as Hn.
  { apply lt_0_INR. destruct l; [done|simpl; lia]. }
  pose proof (Rinv_0_lt_compat _ Hn) as Hi.
  split; intros Hl.
  - pose proof (Rsum_nonpos l Hl). rewrite /Rdiv. nra.
  - pose proof (Rsum_nonneg l Hl). rewrite /Rdiv. nra.
Qed.

(** X3. [_calc_entropy]: the entropy term is never negative. *)
Theorem entropy_is_nonnegative (policy : list (list R)) (e : R) :
  calc_entropy policy = Some e -> 0 <= e.
Proof.
  rewrite /calc_entropy.
  destruct (mean _) as [m|] eqn:Hm; [|done]. intros [= <-].
  destruct (mean_sign _ _ Hm) as [Hle _].
  assert (m <= 0); [|lra].
  apply Hle. intros y [r [-> _]]%list_elem_of_fmap.
  apply row_entropy_term_nonpos.
Qed.

End PolicyFacts.

(** ** Further properties: normalization and losses *)

Section LossProperties.
Context {C : Collab}.
Local Open Scope R_scope.

Lemma view_flat_fmap (f : R -> R) (x : list (list R)) :
  view_flat ((fun row : list R => f <$> row) <$> x) = f <$> view_flat x.
Proof.
  rewrite /view_flat. induction x as [|row x IH]; [done|].
  by rewrite /= fmap_app IH.
Qed.

Lemma Rsum_centered (m s : R) (l : list R) :
  s <> 0 ->
  Rsum ((fun x => (x - m) / s) <$> l) = (Rsum l - INR (length l) * m) / s.
Proof.
  intros Hs. induction l as [|x l IH]; [rewrite /= /Rdiv; lra|].
  change (Rsum ((fun x => (x - m) / s) <$> x :: l))
    with ((x - m) / s + Rsum ((fun x => (x - m) / s) <$> l)).
  change (Rsum (x :: l)) with (x + Rsum l).
  change (length (x :: l)) with (S (length l)).
  rewrite IH S_INR. by field.
Qed.

Lemma Rsum_squares_scaled (m s : R) (l : list R) :
  s <> 0 ->
  Rsum ((fun y => (y - 0) * (y - 0)) <$> ((fun x => (x - m) / s) <$> l))
  = Rsum ((fun x => (x - m) * (x - m)) <$> l) / (s * s).
Proof.
  intros Hs. induction l as [|x l IH]; [rewrite /= /Rdiv; lra|].
  change (((x - m) / s - 0) * ((x - m) / s - 0)
          + Rsum ((fun y => (y - 0) * (y - 0)) <$> ((fun x => (x - m) / s) <$> l))
          = ((x - m) * (x - m) + Rsum ((fun x => (x - m) * (x - m)) <$> l)) / (s * s)).
  rewrite IH. by field.
Qed.

(** X4. The normalization does what its name says: when it is defined, the
    normalized advantages have mean 0 and standard deviation 1. *)
Theorem normalized_advantages_are_standardized (adv adv' : list (list R)) :
  normalize adv = Some adv' ->
  mean (view_flat adv') = Some 0 /\ std (view_flat adv') = Some 1.
Proof.
  rewrite /normalize.
  destruct (mean (view_flat adv)) as [m|] eqn:Hm; [|done].
  destruct (std (view_flat adv)) as [s|] eqn:Hs; [|done].
  case_decide as Hs0; [done|]. intros [= <-].
  rewrite (view_flat_fmap (fun x => (x - m) / s)).
  set (l := view_flat adv) in *.
  assert (l <> []) as Hne by (by destruct l).
  rewrite (mean_nonempty l Hne) in Hm. injection Hm as Hm.
  assert (0 < INR (length l)) as Hn.
  { apply lt_0_INR. destruct l; [done|simpl; lia]. }
  assert (mean ((fun x => (x - m) / s) <$> l) = Some 0) as Hmean.
  { rewrite mean_nonempty; [by destruct l|].
    f_equal. rewrite Rsum_centered // -Hm length_fmap. field. lra. }
  split; [done|].
  rewrite /std Hmean length_fmap.
  rewrite /std (mean_nonempty l Hne) Hm in Hs.
  case_decide as Hlen; [done|]. f_equal. injection Hs as Hs.
  assert (0 < INR (length l - 1)) as Hn1.
  { apply lt_0_INR. destruct l as [|? [|? ?]]; simpl in *; try done; lia. }
  set (V := Rsum ((fun x => (x - m) * (x - m)) <$> l) / INR (length l - 1)) in *.
  assert (0 <= V) as HV.
  { rewrite /V /Rdiv. apply Rmult_le_pos; [apply Rsum_squares_nonneg|].
    left. by apply Rinv_0_lt_compat. }
  assert (s * s = V) as Hss by (rewrite -Hs; by apply sqrt_sqrt).
  rewrite Rsum_squares_scaled // Hss.
  assert (Rsum ((fun x => (x - m) * (x - m)) <$> l) / V / INR (length l - 1) = 1) as ->.
  { rewrite /V. field. split; [lra|].
    intros Hz. apply Hs0. rewrite -Hs /V Hz /Rdiv Rmult_0_l. apply sqrt_0. }
  apply sqrt_1.
Qed.

Lemma surrogate_sum_bounds (lo hi : R) (ratio adv : list R) :
  length ratio = length adv ->
  let z := zip_with Rmin (tmul ratio adv) (tmul (clamp lo hi <$> ratio) adv) in
  length z = length ratio /\
  Rsum z <= Rsum (tmul ratio adv) /\
  (Forall (fun x => 0 <= x) adv -> Rsum z <= hi * Rsum adv).
Proof.
  revert adv. induction ratio as [|r ratio IH]; intros [|x adv] Hlen; try done.
  - simpl. repeat split; try done; lra.
  - simpl in Hlen. destruct (IH adv ltac:(lia)) as (Il & I1 & I2).
    cbn zeta in *. split; [by rewrite /= Il|].
    change (Rsum (zip_with Rmin (tmul (r :: ratio) (x :: adv))
                    (tmul (clamp lo hi <$> r :: ratio) (x :: adv))))
      with (Rmin (r * x) (clamp lo hi r * x)
            + Rsum (zip_with Rmin (tmul ratio adv) (tmul (clamp lo hi <$> ratio) adv))).
    change (Rsum (tmul (r :: ratio) (x :: adv))) with (r * x + Rsum (tmul ratio adv)).
    change (Rsum (x :: adv)) with (x + Rsum adv).
    split.
    + pose proof (Rmin_l (r * x) (clamp lo hi r * x)). lra.
    + intros Hpos. inversion Hpos as [|? ? Hx Hadv]; subst.
      specialize (I2 Hadv).
      pose proof (Rmin_r (r * x) (clamp lo hi r * x)).
      assert (clamp lo hi r <= hi) by apply Rmin_r.
      nra.
Qed.

(** X5. The clipped objective is pessimistic: minus the policy loss never
    exceeds the mean of [ratio * A], and when no advantage is negative it
    never exceeds [1 + epsilon] times the mean advantage, however large the
    ratios are. *)
Theorem surrogate_is_pessimistic (eps : R) (ratio adv : list R) (l : R) :
  length ratio = length adv ->
  surrogate_loss eps ratio adv = Some l ->
  - l <= Rsum (tmul ratio adv) / INR (length ratio) /\
  (Forall (fun x => 0 <= x) adv -> - l <= (1 + eps) * (Rsum adv / INR (length adv))).
Proof.
  intros Hlen. rewrite /surrogate_loss.
  destruct (surrogate_sum_bounds (1 - eps) (1 + eps) ratio adv Hlen) as (Hl & H1 & H2).
  cbn zeta in *. set (z := zip_with Rmin _ _) in *.
  destruct (mean z) as [m|] eqn:Hm; [|done]. intros [= <-].
  assert (z <> []) as Hne by (by destruct z).
  rewrite (mean_nonempty z Hne) Hl in Hm. injection Hm as <-.
  assert (0 < INR (length ratio)) as Hn.
  { apply lt_0_INR. rewrite -Hl. destruct z; [done|simpl; lia]. }
  pose proof (Rinv_0_lt_compat _ Hn) as Hi.
  rewrite -Hlen /Rdiv. split.
  - nra.
  - intros Hpos. specialize (H2 Hpos). nra.
Qed.

(** X6. The value loss handed to [model.update] is never negative. *)
Theorem value_loss_is_nonnegative (a : Agent) (b : Buffers)
    (advantages : option (list (list R))) (indices : list nat) (net : Net) (v : R) :
  value_loss (minibatch_losses a b advantages indices net) = Some v -> 0 <= v.
Proof.
  rewrite /minibatch_losses /=. intros Hm.
  destruct (mean_sign _ _ Hm) as [_ Hge]. apply Hge.
  intros y [x [-> _]]%list_elem_of_fmap. nra.
Qed.

End LossProperties.

(** ** Further properties of the rollout *)

Section RolloutProperties.
Context {C : Collab}.

(** X7. Reward bookkeeping of one rollout step, per worker: the reward is
    added to the running episode reward; when the episode is done that
    total becomes the worker's final reward and the running reward restarts
    at zero, otherwise the final reward is left as it was. *)
Theorem episode_reward_bookkeeping (bw : Buffers * World) (step k : nat)
    (e f r : R) (dn : bool) :
  let d := step_data bw.1 bw.2 step in
  let b' := (rollout_step bw step).1 in
  episode_rewards bw.1 !! k = Some e ->
  final_rewards bw.1 !! k = Some f ->
  sd_reward d !! k = Some r ->
  sd_done d !! k = Some dn ->
  episode_rewards b' !! k = Some (if dn then 0 else e + r)%R /\
  final_rewards b' !! k = Some (if dn then e + r else f)%R.
Proof.
  intros d b' He Hf Hr Hd.
  rewrite /b' /rollout_step /= -/d /tadd /tmul /np_masks.
  rewrite !lookup_zip_with !list_lookup_fmap He Hf Hr Hd /=.
  split; destruct dn; simpl;
    match goal with |- Some ?x = Some ?y => assert (x = y) as ->; [lra|done] end.
Qed.

Lemma rollout_step_steps (bw : Buffers * World) (s : nat) :
  steps (rollout_step bw s).1 = S (steps bw.1).
Proof. done. Qed.

Lemma rollout_prefix_steps (bw : Buffers * World) (n : nat) :
  steps (rollout_prefix bw n).1 = steps bw.1 + n.
Proof.
  induction n as [|n IH]; [rewrite /rollout_prefix /=; lia|].
  rewrite rollout_prefix_S rollout_step_steps IH. lia.
Qed.

Lemma rollout_prefix_net (bw : Buffers * World) (n : nat) :
  w_net (rollout_prefix bw n).2 = w_net bw.2.
Proof. induction n as [|n IH]; [done|]. by rewrite rollout_prefix_S /= IH. Qed.

(** X8. The data of a rollout comes from one policy: the values and the
    log-probabilities stored at every step are those the network gives, with
    the parameters it had when the rollout began, for the observations of
    that step and the actions sampled there. *)
Theorem rollout_uses_one_network (a : Agent) (bw : Buffers * World) (s : nat) :
  buffers_allocated a bw.1 ->
  s < t_max a ->
  let b' := (rollout a bw).1 in
  let d := rollout_data bw s in
  let pv := net_forward (w_net bw.2) (sd_inputs d) in
  w_net (rollout a bw).2 = w_net bw.2 /\
  value_predictions b' !! s = Some pv.2 /\
  actions b' !! s = Some (sd_actions d) /\
  old_log_probs b' !! s = Some (get_log_probs pv.1 (sd_actions d)).
Proof.
  intros Hb Hs b' d pv.
  destruct (rollout_prefix_stores a bw (t_max a) s Hb (Nat.le_refl _) Hs)
    as (_ & Hv & Hl & Ha & _).
  rewrite -/(rollout a bw) -/d in Hv Hl Ha.
  split; [apply (rollout_prefix_net bw (t_max a))|].
  rewrite /b' Hv Hl Ha /d /rollout_data /step_data /= /pv /d /rollout_data /step_data /=.
  by rewrite rollout_prefix_net.
Qed.

End RolloutProperties.

(** ** Further properties of the loop *)

Section LoopProperties.
Context {C : Collab}.

Lemma train_iteration_steps (a : Agent) (args : TrainArgs) (i : nat) (st : LoopState) :
  steps (ls_buffers (train_iteration a args i st).1) = steps (ls_buffers st) + t_max a.
Proof.
  destruct (train_iteration_spec a args i st) as (-> & _).
  rewrite /save_latest_state /calc_returns /= /rollout.
  by rewrite -/(rollout_prefix _ (t_max a)) rollout_prefix_steps.
Qed.

Lemma train_loop_steps (a : Agent) (args : TrainArgs) (n k : nat) (st : LoopState) :
  let r := train_loop a args (seq k n) st in
  steps (ls_buffers r.1)
  = steps (ls_buffers st) + t_max a * match r.2 with Some i => S i - k | None => n end.
Proof.
  revert k st. induction n as [|n IH]; intros k st; simpl; [lia|].
  pose proof (train_iteration_steps a args k st) as Hs.
  destruct (train_iteration a args k st) as [st1 [|]]; simpl in *.
  - rewrite Hs. replace (S k - k) with 1 by lia. lia.
  - specialize (IH (S k) st1). simpl in IH.
    destruct (train_loop_spec a args n (S k) st1) as (_ & Hm).
    destruct (train_loop a args (seq (S k) n) st1) as [st2 [i|]]; simpl in *.
    + destruct Hm as (Hi & _). rewrite IH Hs.
      replace (S i - k) with (S (i - k)) by lia. lia.
    + rewrite IH Hs. lia.
Qed.

(** X9. The counter [steps] counts the environment steps: when [train]
    returns, it equals the number of [env.step] calls made, [t_max] per
    pass.  (X9, X10, X11, X17 and X18 are stated, as C7, for the
    configurations on which python does not raise, [config_ok].) *)
Theorem steps_counts_env_steps (a : Agent) (args : TrainArgs)
    (ev : option Evaluator) (sch : option Scheduler) (w : World) :
  config_ok a args ->
  let r := train a args ev sch w in
  let passes := match r.2 with Some i => i | None => max_updates args end in
  steps (ls_buffers r.1) = t_max a * passes /\
  count is_env_step (w_trace (ls_world r.1))
  = count is_env_step (w_trace w) + steps (ls_buffers r.1).
Proof.
  intros _ r passes. rewrite /passes /r /train.
  pose proof (train_loop_steps a args (max_updates args) 1 (train_init a ev sch w)) as Hs.
  destruct (train_loop_spec a args (max_updates args) 1 (train_init a ev sch w))
    as ((delta & Ht & _ & _ & He) & _).
  cbn zeta in Hs. rewrite Hs Ht /= -app_assoc !count_app He.
  destruct (train_loop _ _ _ _) as [st [i|]]; simpl;
    rewrite ?Nat.sub_0_r /count /=; split; lia.
Qed.

Lemma gae_fold_other (a : Agent) (b : Buffers) (l : list nat) (st : Gae * list (list R))
    (t : nat) :
  t ∉ l -> (foldl (gae_step a b) st l).2 !! t = st.2 !! t.
Proof.
  revert st. induction l as [|s l IH]; intros st Ht; [done|].
  apply not_elem_of_cons in Ht as [Hne Ht].
  rewrite /= IH // /gae_step /= list_lookup_insert_ne //.
Qed.

Lemma rollout_prefix_last_slot (a : Agent) (bw : Buffers * World) (n : nat) :
  n <= t_max a ->
  returns (rollout_prefix bw n).1 = returns bw.1 /\
  old_log_probs (rollout_prefix bw n).1 !! t_max a = old_log_probs bw.1 !! t_max a.
Proof.
  induction n as [|n IH]; intros Hn; [done|].
  destruct (IH ltac:(lia)) as [Hr Hl].
  rewrite rollout_prefix_S rollout_step_returns rollout_step_old_log_probs.
  split; [done|]. rewrite list_lookup_insert_ne; [lia|done].
Qed.

Lemma train_iteration_last_slot (a : Agent) (args : TrainArgs) (i : nat) (st : LoopState) :
  let b := ls_buffers st in
  let b' := ls_buffers (train_iteration a args i st).1 in
  returns b' !! t_max a = returns b !! t_max a /\
  old_log_probs b' !! t_max a = old_log_probs b !! t_max a.
Proof.
  intros b b'. rewrite /b'. destruct (train_iteration_spec a args i st) as (-> & _).
  destruct (rollout_prefix_last_slot a (ls_buffers st, ls_world st) (t_max a)
              (Nat.le_refl _)) as [Hr Hl].
  rewrite -/(rollout a _) in Hr Hl. split.
  - rewrite /save_latest_state /calc_returns /= gae_fold_other /=; [|by rewrite Hr].
    intros Hin. apply elem_of_reverse, elem_of_seq in Hin. lia.
  - by rewrite /save_latest_state /calc_returns /= Hl.
Qed.

(** X10. The last slot of [returns] and of [old_log_probs] is never written:
    after any number [n] of passes both are still the zeros they were
    allocated with. *)
Theorem final_slots_stay_zero (a : Agent) (args : TrainArgs)
    (ev : option Evaluator) (sch : option Scheduler) (w : World) (n : nat) :
  config_ok a args ->
  let b := ls_buffers (train_loop a args (seq 1 n) (train_init a ev sch w)).1 in
  returns b !! t_max a = Some (replicate (n_worker a) 0%R) /\
  old_log_probs b !! t_max a = Some (replicate (n_worker a) 0%R).
Proof.
  intros _. generalize (seq 1 n) as updates. intros updates.
  assert (forall st : LoopState,
            returns (ls_buffers st) !! t_max a = Some (replicate (n_worker a) 0%R) /\
            old_log_probs (ls_buffers st) !! t_max a = Some (replicate (n_worker a) 0%R) ->
            returns (ls_buffers (train_loop a args updates st).1) !! t_max a
            = Some (replicate (n_worker a) 0%R) /\
            old_log_probs (ls_buffers (train_loop a args updates st).1) !! t_max a
            = Some (replicate (n_worker a) 0%R)) as Hloop.
  { induction updates as [|i updates IH]; intros st Hst; [done|].
    simpl. destruct (train_iteration_last_slot a args i st) as [Hr Hl].
    destruct (train_iteration a args i st) as [st1 [|]]; simpl in *.
    - by rewrite Hr Hl.
    - apply IH. by rewrite Hr Hl. }
  apply Hloop. rewrite /= /zeros. split; apply lookup_replicate_2; lia.
Qed.

(** X11. The shapes are an invariant of training: with collaborators that
    answer with one entry per worker, every tensor has its allocated shape
    when [train] returns. *)
Theorem train_keeps_shapes (a : Agent) (args : TrainArgs)
    (ev : option Evaluator) (sch : option Scheduler) (w : World) :
  config_ok a args ->
  collab_shaped a ->
  buffers_shaped a (ls_buffers (train a args ev sch w).1).
Proof.
  intros _ Hc. destruct (train_init_shaped a Hc ev sch w) as [Hb Hne].
  by destruct (train_loop_shaped a Hc args (seq 1 (max_updates args)) _ Hb Hne).
Qed.

End LoopProperties.

(** ** Further properties of the returns *)

Section ReturnProperties.
Context {C : Collab}.
Local Open Scope R_scope.

Lemma entry_of_lookup {A} `{Inhabited A} (x : list (list A)) (t k : nat) (v : A) :
  x !! t ≫= (.!! k) = Some v -> entry x t k = v.
Proof.
  destruct (x !! t) as [row|] eqn:Hrow; [|done]. simpl. intros Hv.
  by rewrite /entry (list_lookup_total_correct _ _ _ Hrow)
       (list_lookup_total_correct _ _ _ Hv).
Qed.

(** The entries of [returns] and of the advantages after [calc_returns]. *)
Lemma calc_returns_entries (a : Agent) (bw : Buffers * World) (t k : nat) :
  let inputs := (fun obs : list ObsSlot => obs !!! t_max a) <$> observations bw.1 in
  let b' := (calc_returns a bw).1 in
  buffers_shaped a bw.1 ->
  length (net_forward_value (w_net bw.2) inputs) = n_worker a ->
  (t < t_max a)%nat ->
  (k < n_worker a)%nat ->
  entry (returns b') t k = gae_at a b' k t + entry (value_predictions b') t k /\
  entry (raw_advantages b') t k = gae_at a b' k t.
Proof.
  intros inputs b' Hb Hboot Ht Hk.
  pose proof Hb as [Ho Hr Hv Hl Hret Ha Hm].
  assert ((fun obs : list ObsSlot => obs !!! py_last obs) <$> observations bw.1 = inputs)
    as Hin.
  { apply Forall_fmap_ext_1. eapply Forall_impl; [exact Ho|].
    intros obs [Hlen _]. rewrite /= /py_last Hlen. f_equal. lia. }
  set (b1 := set_value_predictions
               (<[t_max a := net_forward_value (w_net bw.2) inputs]>
                  (value_predictions bw.1)) bw.1).
  assert (shaped (t_max a + 1) (n_worker a) (value_predictions b1)) as Hv1.
  { by apply shaped_insert. }
  assert (b' = set_returns
                 (foldl (gae_step a b1) (GaeZero, returns b1) (reverse (seq 0 (t_max a)))).2
                 b1) as Hb'.
  { rewrite /b' /calc_returns /= Hin /py_last. destruct Hv as [-> _].
    by replace (t_max a + 1 - 1)%nat with (t_max a) by lia. }
  destruct (gae_fold_invariant a b1 (t_max a) GaeZero (returns b1) Hr Hv1 Hm)
    as (I1 & I2); [by destruct Hret|lia| |].
  { intros k' _. by rewrite gae_at_end. }
  assert (forall s, gae_at a b' k s = gae_at a b1 k s) as Hgae by (by rewrite Hb').
  assert (value_predictions b' = value_predictions b1) as Hvp by (by rewrite Hb').
  assert (returns b' !! t ≫= (.!! k)
          = Some (gae_at a b' k t + entry (value_predictions b') t k)) as Hret'.
  { rewrite Hgae Hvp. rewrite {1}Hb' /=. by apply I1. }
  split; [by apply entry_of_lookup|].
  apply entry_of_lookup. rewrite /raw_advantages lookup_zip_with.
  assert (py_init (returns b') !! t = returns b' !! t) as ->.
  { apply py_init_lookup. rewrite Hb' /= gae_fold_length /=.
    destruct Hret as [-> _]. lia. }
  assert (py_init (value_predictions b') !! t = value_predictions b' !! t) as ->.
  { apply py_init_lookup. rewrite Hvp /= length_insert.
    destruct Hv as [-> _]. lia. }
  destruct (returns b' !! t) as [rr|] eqn:Hrr; [|done]. simpl in Hret'.
  assert (t < t_max a + 1)%nat as Ht1 by lia.
  pose proof (shaped_lookup _ _ _ t k Hv1 Ht1 Hk) as Hvl. rewrite -Hvp in Hvl.
  destruct (value_predictions b' !! t) as [rv|] eqn:Hrv; [|done]. simpl in *.
  rewrite /tsub lookup_zip_with Hret' /= Hvl /=. f_equal. lra.
Qed.

(** X12. An episode end cuts the recursion: for a worker whose done flag is set
    at step [t], the return of that step is the reward of that step, whatever
    the later rewards, values and the bootstrap value are. *)
Theorem episode_end_cuts_returns (a : Agent) (bw : Buffers * World) (t k : nat) :
  let inputs := (fun obs : list ObsSlot => obs !!! t_max a) <$> observations bw.1 in
  let b' := (calc_returns a bw).1 in
  buffers_shaped a bw.1 ->
  length (net_forward_value (w_net bw.2) inputs) = n_worker a ->
  (t < t_max a)%nat ->
  (k < n_worker a)%nat ->
  entry (masks bw.1) t k = 0 ->
  entry (returns b') t k = entry (rewards bw.1) t k.
Proof.
  intros inputs b' Hb Hboot Ht Hk Hmask.
  destruct (calc_returns_entries a bw t k Hb Hboot Ht Hk) as [Hr _].
  rewrite -/b' in Hr. rewrite Hr gae_at_step //.
  change (masks b') with (masks bw.1). change (rewards b') with (rewards bw.1).
  rewrite Hmask. lra.
Qed.

(** X13. With [gae_lambda = 0] the advantage before normalization is the
    one-step temporal-difference error
    [rewards[t] + gamma * value_predictions[t+1] * masks[t] - value_predictions[t]]. *)
Theorem lambda_zero_gives_td_error (a : Agent) (bw : Buffers * World) (t k : nat) :
  let inputs := (fun obs : list ObsSlot => obs !!! t_max a) <$> observations bw.1 in
  let b' := (calc_returns a bw).1 in
  buffers_shaped a bw.1 ->
  length (net_forward_value (w_net bw.2) inputs) = n_worker a ->
  (t < t_max a)%nat ->
  (k < n_worker a)%nat ->
  gae_lambda a = 0 ->
  entry (raw_advantages b') t k
  = entry (rewards b') t k
    + gamma a * entry (value_predictions b') (t + 1) k * entry (masks b') t k
    - entry (value_predictions b') t k.
Proof.
  intros inputs b' Hb Hboot Ht Hk Hlam.
  destruct (calc_returns_entries a bw t k Hb Hboot Ht Hk) as [_ Ha].
  rewrite -/b' in Ha. rewrite Ha gae_at_step // Hlam. lra.
Qed.

(** X14. With [gae_lambda = 1] the returns are the discounted returns: each is
    the reward plus [gamma * masks[t]] times the return of the next step, the
    bootstrap value [value_predictions[t_max]] standing for the return after
    the last step. *)
Theorem lambda_one_gives_discounted_returns (a : Agent) (bw : Buffers * World)
    (t k : nat) :
  let inputs := (fun obs : list ObsSlot => obs !!! t_max a) <$> observations bw.1 in
  let b' := (calc_returns a bw).1 in
  buffers_shaped a bw.1 ->
  length (net_forward_value (w_net bw.2) inputs) = n_worker a ->
  (t < t_max a)%nat ->
  (k < n_worker a)%nat ->
  gae_lambda a = 1 ->
  entry (returns b') t k
  = entry (rewards b') t k
    + gamma a * entry (masks b') t k
      * (if decide (t + 1 < t_max a)%nat then entry (returns b') (t + 1) k
         else entry (value_predictions b') (t_max a) k).
Proof.
  intros inputs b' Hb Hboot Ht Hk Hlam.
  destruct (calc_returns_entries a bw t k Hb Hboot Ht Hk) as [Hr _].
  rewrite -/b' in Hr. rewrite Hr gae_at_step // Hlam.
  case_decide as Hnext.
  - destruct (calc_returns_entries a bw (t + 1) k Hb Hboot Hnext Hk) as [Hr1 _].
    rewrite -/b' in Hr1. rewrite Hr1. lra.
  - replace (t + 1)%nat with (t_max a) by lia. rewrite gae_at_end. lra.
Qed.

End ReturnProperties.

(** ** Further properties: stored models *)

Section StoreProperties.

Lemma list_ascii_of_string_app (s1 s2 : string) :
  list_ascii_of_string (s1 +:+ s2) = list_ascii_of_string s1 ++ list_ascii_of_string s2.
Proof. induction s1 as [|c s1 IH]; [done|]. by rewrite /= IH. Qed.

Lemma string_app_inv_tail (s1 s2 t : string) : s1 +:+ t = s2 +:+ t -> s1 = s2.
Proof.
  intros Heq. apply (f_equal list_ascii_of_string) in Heq.
  rewrite !list_ascii_of_string_app in Heq. apply app_inv_tail in Heq.
  by rewrite -(string_of_list_ascii_of_string s1) Heq string_of_list_ascii_of_string.
Qed.

Lemma file_name_relative (f : ModelFile) : starts_with_sep (file_name f) = false.
Proof. by destruct f. Qed.

Lemma file_name_inj (f g : ModelFile) : file_name f = file_name g -> f = g.
Proof.
  destruct f as [|i], g as [|j]; try done.
  intros Heq. apply (String.app_inj "model_update_") in Heq.
  apply string_app_inv_tail in Heq. by apply (inj pretty) in Heq as ->.
Qed.

Lemma store_model_inj (f g : ModelFile) (store_dir : option string) :
  store_model (file_name f) store_dir = store_model (file_name g) store_dir -> f = g.
Proof.
  destruct store_dir as [d|]; simpl; [|apply file_name_inj].
  rewrite /path_join !file_name_relative.
  destruct (bool_decide (d = EmptyString) || ends_with_sep d); intros Heq.
  - by apply (String.app_inj d), file_name_inj in Heq.
  - apply (String.app_inj d) in Heq. by apply (String.app_inj "/"), file_name_inj in Heq.
Qed.

(** X15. Stored models do not overwrite each other: in one directory, the files
    of two different updates have different paths, and none of them is the
    path of the best model. *)
Theorem store_model_paths_distinct (f g : ModelFile) (store_dir : option string) :
  f <> g ->
  store_model (file_name f) store_dir <> store_model (file_name g) store_dir.
Proof. intros Hne Heq. by apply Hne, (store_model_inj f g store_dir). Qed.

End StoreProperties.

(** ** Further properties: best score, evaluations and dumps *)

Section CadenceProperties.
Context {C : Collab}.

(** X16. [best_score] is the running extreme of the scores: after a score is
    recorded it is the larger (when high is better) or the smaller (when it
    is not) of the score and the previous best; ['best_model.pt'] is stored
    exactly when the new best is the score itself, ties included. *)
Theorem best_score_is_running_extreme (args : TrainArgs) (score : R) (st : LoopState) :
  let st' := record_best args score st in
  let best' :=
    match ls_best_score st with
    | None => score
    | Some bst => if high_is_better args then Rmax bst score else Rmin bst score
    end in
  ls_best_score st' = Some best' /\
  (best' = score ->
   w_trace (ls_world st') = w_trace (ls_world st) ++ [EvStoreModel BestModel]) /\
  (best' <> score -> st' = st).
Proof.
  intros st' best'. rewrite /st' /best' /record_best /improvement.
  destruct (ls_best_score st) as [bst|] eqn:Hb; [|done].
  destruct (high_is_better args); case_bool_decide as Hle; simpl.
  - rewrite Rmax_right //.
  - rewrite Rmax_left; [lra|]. rewrite Hb. repeat split; try done. intros ->. lra.
  - rewrite Rmin_right //.
  - rewrite Rmin_left; [lra|]. rewrite Hb. repeat split; try done. intros ->. lra.
Qed.

Lemma omap_rollout_trace (proj : Event -> option nat) (bw : Buffers * World) (n : nat) :
  ignores_update_calls proj -> omap proj (rollout_trace bw n) = [].
Proof.
  intros (Hf & Hs & _). induction n as [|n IH]; [done|].
  by rewrite /rollout_trace seq_S bind_app omap_app -/(rollout_trace bw n) IH /= Hf Hs.
Qed.

Lemma omap_minibatch_trace (proj : Event -> option nat) (b : Buffers)
    (batches : list (list nat)) (ls : list Losses) :
  ignores_update_calls proj -> omap proj (minibatch_trace b batches ls) = [].
Proof.
  intros (Hf & _ & _ & Hu). revert ls.
  induction batches as [|c batches IH]; intros [|l ls]; try done.
  rewrite /minibatch_trace /= -/(minibatch_trace b batches ls) Hf Hu. apply IH.
Qed.

Lemma omap_update_phase (proj : Event -> option nat) (a : Agent) (st : LoopState) :
  ignores_update_calls proj ->
  omap proj (w_trace (ls_world (update_phase a st))) = omap proj (w_trace (ls_world st)).
Proof.
  intros Hp. destruct (update_phase_trace a st) as (epochs & ls & _ & _ & _ & ->).
  rewrite !omap_app omap_rollout_trace //.
  match goal with |- context [omap proj (?e :: ?mt)] =>
    change (e :: mt) with ([e] ++ mt) end.
  rewrite omap_app omap_minibatch_trace //.
  destruct Hp as (_ & _ & Hv & _). by rewrite /= Hv !app_nil_r.
Qed.

Lemma evaluations_ignore : ignores_update_calls
  (fun e => match e with EvEvaluate k => Some k | _ => None end).
Proof. done. Qed.

Lemma dumps_ignore : ignores_update_calls
  (fun e => match e with EvStoreModel (ModelUpdate i) => Some i | _ => None end).
Proof. done. Qed.

Lemma record_best_projections (args : TrainArgs) (score : R) (st : LoopState) :
  evaluations (w_trace (ls_world (record_best args score st)))
  = evaluations (w_trace (ls_world st)) /\
  dumps (w_trace (ls_world (record_best args score st))) = dumps (w_trace (ls_world st)).
Proof.
  rewrite /record_best. destruct (improvement _ _ _); [|done].
  by rewrite /evaluations /dumps /= !omap_app /= !app_nil_r.
Qed.

Lemma evaluation_projections (args : TrainArgs) (i : nat) (st : LoopState) :
  evaluations (w_trace (ls_world (evaluation args i st).1))
  = evaluations (w_trace (ls_world st))
    ++ (if supplied (ls_evaluator st) && bool_decide (i mod eval_interval args = 0)
        then [i / eval_interval args] else []) /\
  dumps (w_trace (ls_world (evaluation args i st).1)) = dumps (w_trace (ls_world st)).
Proof.
  rewrite /evaluation.
  destruct (ls_evaluator st) as [ev|]; simpl; [|by rewrite app_nil_r].
  case_decide as Hi; [rewrite bool_decide_eq_true_2 //|
                      rewrite bool_decide_eq_false_2 //; by rewrite app_nil_r].
  destruct (score_name args) as [name|]; simpl.
  - destruct (ls_scheduler st) as [sch|]; simpl.
    + case_decide as Hlr; simpl.
      * by rewrite /evaluations /dumps !omap_app /= !app_nil_r.
      * match goal with |- context [record_best ?x ?y ?z] =>
          destruct (record_best_projections x y z) as [-> ->] end.
        by rewrite /evaluations /dumps /= !omap_app /= !app_nil_r.
    + match goal with |- context [record_best ?x ?y ?z] =>
        destruct (record_best_projections x y z) as [-> ->] end.
      by rewrite /evaluations /dumps /= !omap_app /= !app_nil_r.
  - by rewrite /evaluations /dumps /= !omap_app /= !app_nil_r.
Qed.

Lemma dump_projections (args : TrainArgs) (i : nat) (st : LoopState) :
  evaluations (w_trace (ls_world (dump args i st))) = evaluations (w_trace (ls_world st)) /\
  dumps (w_trace (ls_world (dump args i st)))
  = dumps (w_trace (ls_world st))
    ++ (if bool_decide (i mod dump_interval args = 0) then [i] else []).
Proof.
  rewrite /dump. case_decide as Hi.
  - rewrite bool_decide_eq_true_2 //.
    by rewrite /evaluations /dumps /= !omap_app /= !app_nil_r.
  - rewrite bool_decide_eq_false_2 //. by rewrite app_nil_r.
Qed.

Lemma train_iteration_projections (a : Agent) (args : TrainArgs) (i : nat)
    (st : LoopState) :
  let r := train_iteration a args i st in
  evaluations (w_trace (ls_world r.1))
  = evaluations (w_trace (ls_world st))
    ++ (if supplied (ls_evaluator st) && bool_decide (i mod eval_interval args = 0)
        then [i / eval_interval args] else []) /\
  dumps (w_trace (ls_world r.1))
  = dumps (w_trace (ls_world st))
    ++ (if negb r.2 && bool_decide (i mod dump_interval args = 0) then [i] else []).
Proof.
  rewrite /train_iteration.
  destruct (evaluation_projections args i (update_phase a st)) as [He Hd].
  rewrite /evaluations /dumps in He Hd.
  rewrite (omap_update_phase _ a st evaluations_ignore) in He.
  rewrite (omap_update_phase _ a st dumps_ignore) in Hd.
  change (ls_evaluator (update_phase a st)) with (ls_evaluator st) in He.
  destruct (evaluation args i (update_phase a st)) as [st1 [|]]; simpl in *.
  - split; [done|]. by rewrite app_nil_r.
  - destruct (dump_projections args i st1) as [-> ->].
    by rewrite /evaluations /dumps He Hd.
Qed.

Lemma train_loop_projections (a : Agent) (args : TrainArgs) (n k : nat) (st : LoopState) :
  let r := train_loop a args (seq k n) st in
  let p := match r.2 with Some i => S i - k | None => n end in
  let c := match r.2 with Some i => i - k | None => n end in
  evaluations (w_trace (ls_world r.1))
  = evaluations (w_trace (ls_world st))
    ++ (if supplied (ls_evaluator st)
        then (fun i => i / eval_interval args)
               <$> filter (fun i => i mod eval_interval args = 0) (seq k p)
        else []) /\
  dumps (w_trace (ls_world r.1))
  = dumps (w_trace (ls_world st))
    ++ filter (fun i => i mod dump_interval args = 0) (seq k c).
Proof.
  revert k st. induction n as [|n IH]; intros k st; simpl.
  - split; [|by rewrite app_nil_r]. destruct (supplied _); by rewrite app_nil_r.
  - destruct (train_iteration_projections a args k st) as [He Hd].
    destruct (train_iteration_spec a args k st) as (_ & Hsup & _).
    destruct (train_iteration a args k st) as [st1 [|]]; simpl in *.
    + rewrite He Hd. replace (S k - k) with 1 by lia. rewrite Nat.sub_diag /=.
      split; [|done]. f_equal. destruct (supplied (ls_evaluator st)); simpl; [|done].
      rewrite filter_cons filter_nil. case_bool_decide; by case_decide.
    + specialize (IH (S k) st1). simpl in IH. destruct IH as [Ie Id].
      destruct (train_loop_spec a args n (S k) st1) as (_ & Hm).
      rewrite Ie Id He Hd Hsup -!app_assoc.
      assert (match (train_loop a args (seq (S k) n) st1).2 with
              | Some i => S i - k
              | None => S n
              end
              = S match (train_loop a args (seq (S k) n) st1).2 with
                  | Some i => S i - S k
                  | None => n
                  end) as ->.
      { destruct (train_loop a args (seq (S k) n) st1).2; [|done].
        destruct Hm as [? _]. lia. }
      assert (match (train_loop a args (seq (S k) n) st1).2 with
              | Some i => i - k
              | None => S n
              end
              = S match (train_loop a args (seq (S k) n) st1).2 with
                  | Some i => i - S k
                  | None => n
                  end) as ->.
      { destruct (train_loop a args (seq (S k) n) st1).2; [|done].
        destruct Hm as [? _]. lia. }
      simpl seq. rewrite !filter_cons. split; f_equal.
      * destruct (supplied (ls_evaluator st)); simpl; [|done].
        destruct (decide (k mod eval_interval args = 0)) as [E|E].
        -- by rewrite bool_decide_true.
        -- by rewrite bool_decide_false.
      * destruct (decide (k mod dump_interval args = 0)) as [E|E].
        -- by rewrite bool_decide_true.
        -- by rewrite bool_decide_false.
Qed.

Lemma div_succ (d p : nat) :
  0 < d ->
  if decide (S p mod d = 0) then S p / d = S (p / d) /\ S p = S (p / d) * d
  else S p / d = p / d.
Proof.
  intros Hd.
  pose proof (Nat.div_mod_eq (S p) d) as H1. pose proof (Nat.div_mod_eq p d) as H2.
  pose proof (Nat.mod_upper_bound p d ltac:(lia)) as H3.
  pose proof (Nat.mod_upper_bound (S p) d ltac:(lia)) as H4.
  case_decide as Hm.
  - assert (S p / d = S (p / d)) as Hq; [|split; [done|]; nia].
    rewrite Hm in H1. nia.
  - assert (p mod d < d - 1 \/ p mod d = d - 1) as [Hlt|Heq] by lia.
    + symmetry. apply (Nat.div_unique _ _ _ (S (p mod d))); lia.
    + exfalso. apply Hm. symmetry.
      apply (Nat.mod_unique _ _ (S (p / d))); [lia|]. nia.
Qed.

(** The multiples of [d] among [1 .. p] are [d, 2d, ..., (p / d) d]. *)
Lemma multiples_upto (d p : nat) :
  0 < d ->
  filter (fun i => i mod d = 0) (seq 1 p) = (fun j => j * d) <$> seq 1 (p / d).
Proof.
  intros Hd. induction p as [|p IH].
  - by rewrite Nat.Div0.div_0_l.
  - rewrite seq_S filter_app IH /=. pose proof (div_succ d p Hd) as Hs.
    rewrite filter_cons filter_nil. case_decide as Hm.
    + destruct Hs as [-> Hp]. rewrite seq_S fmap_app. f_equal.
      change (?f <$> [?x]) with [f x]. f_equal. lia.
    + by rewrite Hs app_nil_r.
Qed.

(** X17. The evaluator is called at the passes divisible by [eval_interval],
    and only there: with an evaluator supplied, its calls during [train] are
    numbered 1, 2, ..., [passes / eval_interval] in this order; without one
    there is no call. *)
Theorem evaluations_are_numbered (a : Agent) (args : TrainArgs)
    (ev : option Evaluator) (sch : option Scheduler) (w : World) :
  config_ok a args ->
  let r := train a args ev sch w in
  let passes := match r.2 with Some i => i | None => max_updates args end in
  evaluations (w_trace (ls_world r.1))
  = evaluations (w_trace w)
    ++ (if supplied ev then seq 1 (passes / eval_interval args) else []).
Proof.
  intros (_ & _ & _ & _ & _ & He & _) r passes. rewrite /passes /r /train.
  destruct (train_loop_projections a args (max_updates args) 1 (train_init a ev sch w))
    as [Hev _].
  cbn zeta in Hev. rewrite Hev.
  assert (evaluations (w_trace (ls_world (train_init a ev sch w)))
          = evaluations (w_trace w)) as ->.
  { by rewrite /evaluations /= omap_app /= app_nil_r. }
  f_equal. change (ls_evaluator (train_init a ev sch w)) with ev.
  destruct (supplied ev); [|done].
  assert (match (train_loop a args (seq 1 (max_updates args)) (train_init a ev sch w)).2
          with Some i => S i - 1 | None => max_updates args end
          = match (train_loop a args (seq 1 (max_updates args))
                     (train_init a ev sch w)).2
            with Some i => i | None => max_updates args end) as ->.
  { destruct (train_loop _ _ _ _).2; lia. }
  rewrite multiples_upto // -list_fmap_compose.
  rewrite -{2}(list_fmap_id (seq 1 _)). apply list_fmap_ext.
  intros _ j _. simpl. apply Nat.div_mul. lia.
Qed.

(** X18. ['model_update_{i}.pt'] is stored exactly at the completed passes
    divisible by [dump_interval]: [dump_interval], [2 * dump_interval], ...
    up to the last completed pass; the pass at which the loop breaks stores
    none. *)
Theorem dumps_follow_dump_interval (a : Agent) (args : TrainArgs)
    (ev : option Evaluator) (sch : option Scheduler) (w : World) :
  config_ok a args ->
  let r := train a args ev sch w in
  let completed := match r.2 with Some i => i - 1 | None => max_updates args end in
  dumps (w_trace (ls_world r.1))
  = dumps (w_trace w)
    ++ ((fun j => j * dump_interval args) <$> seq 1 (completed / dump_interval args)).
Proof.
  intros (_ & _ & _ & _ & _ & _ & Hd) r completed. rewrite /completed /r /train.
  destruct (train_loop_projections a args (max_updates args) 1 (train_init a ev sch w))
    as [_ Hdu].
  cbn zeta in Hdu. rewrite Hdu.
  assert (dumps (w_trace (ls_world (train_init a ev sch w))) = dumps (w_trace w)) as ->.
  { by rewrite /dumps /= omap_app /= app_nil_r. }
  f_equal. by rewrite multiples_upto.
Qed.

End CadenceProperties.

(** ** Instances of the further properties *)

Section ExtraInstances.
#[local] Existing Instance Toy.collab.
Local Open Scope R_scope.

Lemma toy_config_ok : config_ok Toy.agent Toy.args.
Proof. rewrite /config_ok /=. lia. Qed.

Lemma toy_buffers_allocated : buffers_allocated Toy.agent (ls_buffers Toy.state).
Proof. split; repeat constructor. Qed.

Lemma sampled_from_distributions_witness :
  Forall (fun row : list R => row <> []) [[0; 0]] /\
  exists probs,
    sample_action (w_rng Toy.world) [[0; 0]] = multinomial (w_rng Toy.world) probs /\
    length probs = 1%nat /\
    Forall (fun p => Forall (fun x => 0 < x <= 1) p /\ Rsum p = 1) probs.
Proof.
  assert (Forall (fun row : list R => row <> []) [[0; 0]]) as Hne.
  { by repeat constructor. }
  split; [exact Hne|].
  exact (sampled_from_distributions (w_rng Toy.world) [[0; 0]] Hne).
Defined.

Lemma log_prob_is_log_of_probability_witness :
  (1 < length [0; 0])%nat /\
  exists p,
    softmax [0; 0] !! 1%nat = Some p /\ 0 < p <= 1 /\
    get_log_probs [[0; 0]] [1%nat] !! 0%nat = Some (ln p) /\ ln p <= 0.
Proof.
  split; [simpl; lia|].
  apply (log_prob_is_log_of_probability [[0; 0]] [1%nat] 0 1 [0; 0]).
  - reflexivity.
  - reflexivity.
  - simpl; lia.
Defined.

Lemma entropy_is_nonnegative_witness :
  exists e, calc_entropy [[0; 0]] = Some e /\ 0 <= e.
Proof.
  eexists. split; [reflexivity|].
  apply (entropy_is_nonnegative [[0; 0]]). reflexivity.
Defined.

Lemma normalized_advantages_are_standardized_witness :
  exists adv,
    normalize (raw_advantages Toy.buffers) = Some adv /\
    mean (view_flat adv) = Some 0 /\ std (view_flat adv) = Some 1.
Proof.
  destruct toy_normalize_defined as [adv Hadv]. exists adv. split; [exact Hadv|].
  exact (normalized_advantages_are_standardized (raw_advantages Toy.buffers) adv Hadv).
Defined.

Lemma surrogate_is_pessimistic_witness :
  exists l,
    surrogate_loss 1 [1; 3] [1; 1] = Some l /\
    - l <= Rsum (tmul [1; 3] [1; 1]) / INR (length [1; 3]).
Proof.
  eexists. split; [reflexivity|].
  apply (surrogate_is_pessimistic 1 [1; 3] [1; 1]); reflexivity.
Defined.

Lemma value_loss_is_nonnegative_witness :
  exists v,
    value_loss (minibatch_losses Toy.agent Toy.buffers None [0; 3]%nat (w_net Toy.world))
    = Some v /\ 0 <= v.
Proof.
  eexists. split; [reflexivity|].
  apply (value_loss_is_nonnegative Toy.agent Toy.buffers None [0; 3]%nat (w_net Toy.world)).
  reflexivity.
Defined.

Lemma episode_reward_bookkeeping_witness :
  sd_done (step_data Toy.buffers Toy.world 0) !! 1%nat = Some true /\
  episode_rewards (rollout_step (Toy.buffers, Toy.world) 0).1 !! 1%nat = Some 0 /\
  final_rewards (rollout_step (Toy.buffers, Toy.world) 0).1 !! 1%nat = Some (0 + 0).
Proof.
  split; [reflexivity|].
  apply (episode_reward_bookkeeping (Toy.buffers, Toy.world) 0 1 0 0 0 true); reflexivity.
Defined.

Lemma rollout_uses_one_network_witness :
  buffers_allocated Toy.agent (ls_buffers Toy.state) /\
  w_net (rollout Toy.agent (ls_buffers Toy.state, ls_world Toy.state)).2
  = w_net (ls_world Toy.state).
Proof.
  split; [exact toy_buffers_allocated|].
  destruct (rollout_uses_one_network Toy.agent (ls_buffers Toy.state, ls_world Toy.state) 1
              toy_buffers_allocated) as (Hn & _).
  - simpl; lia.
  - exact Hn.
Defined.

Lemma steps_counts_env_steps_witness :
  config_ok Toy.agent Toy.args /\
  steps (ls_buffers (train Toy.agent Toy.args Toy.evaluator Toy.lr_scheduler Toy.world).1)
  = (t_max Toy.agent
     * match (train Toy.agent Toy.args Toy.evaluator Toy.lr_scheduler Toy.world).2 with
       | Some i => i
       | None => max_updates Toy.args
       end)%nat.
Proof.
  split; [exact toy_config_ok|].
  destruct (steps_counts_env_steps Toy.agent Toy.args Toy.evaluator Toy.lr_scheduler
              Toy.world toy_config_ok) as [Hs _].
  exact Hs.
Defined.

Lemma final_slots_stay_zero_witness :
  config_ok Toy.agent Toy.args /\
  returns (ls_buffers (train_loop Toy.agent Toy.args (seq 1 1) Toy.state).1)
    !! t_max Toy.agent
  = Some (replicate (n_worker Toy.agent) 0).
Proof.
  split; [exact toy_config_ok|].
  destruct (final_slots_stay_zero Toy.agent Toy.args Toy.evaluator Toy.lr_scheduler
              Toy.world 1 toy_config_ok) as [Hr _].
  exact Hr.
Defined.

Lemma train_keeps_shapes_witness :
  config_ok Toy.agent Toy.args /\ collab_shaped Toy.agent /\
  buffers_shaped Toy.agent
    (ls_buffers (train Toy.agent Toy.args Toy.evaluator Toy.lr_scheduler Toy.world).1).
Proof.
  split; [exact toy_config_ok|]. split; [exact toy_collab_shaped|].
  exact (train_keeps_shapes Toy.agent Toy.args Toy.evaluator Toy.lr_scheduler Toy.world
           toy_config_ok toy_collab_shaped).
Defined.

Lemma episode_end_cuts_returns_witness :
  entry (masks Toy.buffers) 1 1 = 0 /\
  entry (returns (calc_returns Toy.agent (Toy.buffers, Toy.world)).1) 1 1
  = entry (rewards Toy.buffers) 1 1.
Proof.
  split; [reflexivity|].
  apply (episode_end_cuts_returns Toy.agent (Toy.buffers, Toy.world) 1 1).
  - exact toy_buffers_shaped.
  - reflexivity.
  - simpl; lia.
  - simpl; lia.
  - reflexivity.
Defined.

Lemma toy_buffers_shaped0 : buffers_shaped ToyExtra.agent0 Toy.buffers.
Proof. split; repeat constructor. Qed.

Lemma lambda_zero_gives_td_error_witness :
  gae_lambda ToyExtra.agent0 = 0 /\
  entry (raw_advantages (calc_returns ToyExtra.agent0 (Toy.buffers, Toy.world)).1) 0 0
  = entry (rewards (calc_returns ToyExtra.agent0 (Toy.buffers, Toy.world)).1) 0 0
    + gamma ToyExtra.agent0
      * entry (value_predictions (calc_returns ToyExtra.agent0 (Toy.buffers, Toy.world)).1)
          (0 + 1) 0
      * entry (masks (calc_returns ToyExtra.agent0 (Toy.buffers, Toy.world)).1) 0 0
    - entry (value_predictions (calc_returns ToyExtra.agent0 (Toy.buffers, Toy.world)).1)
        0 0.
Proof.
  split; [reflexivity|].
  apply (lambda_zero_gives_td_error ToyExtra.agent0 (Toy.buffers, Toy.world) 0 0).
  - exact toy_buffers_shaped0.
  - reflexivity.
  - simpl; lia.
  - simpl; lia.
  - reflexivity.
Defined.

Lemma lambda_one_gives_discounted_returns_witness :
  gae_lambda Toy.agent = 1 /\
  entry (returns (calc_returns Toy.agent (Toy.buffers, Toy.world)).1) 1 0
  = entry (rewards (calc_returns Toy.agent (Toy.buffers, Toy.world)).1) 1 0
    + gamma Toy.agent
      * entry (masks (calc_returns Toy.agent (Toy.buffers, Toy.world)).1) 1 0
      * entry (value_predictions (calc_returns Toy.agent (Toy.buffers, Toy.world)).1)
          (t_max Toy.agent) 0.
Proof.
  split; [reflexivity|].
  apply (lambda_one_gives_discounted_returns Toy.agent (Toy.buffers, Toy.world) 1 0).
  - exact toy_buffers_shaped.
  - reflexivity.
  - simpl; lia.
  - simpl; lia.
  - reflexivity.
Defined.

Lemma store_model_paths_distinct_witness :
  BestModel <> ModelUpdate 1 /\
  store_model (file_name BestModel) (Some "dump"%string)
  <> store_model (file_name (ModelUpdate 1)) (Some "dump"%string).
Proof.
  assert (BestModel <> ModelUpdate 1) as Hne by discriminate.
  split; [exact Hne|].
  exact (store_model_paths_distinct BestModel (ModelUpdate 1) (Some "dump"%string) Hne).
Defined.

Lemma evaluations_are_numbered_witness :
  config_ok Toy.agent Toy.args /\
  evaluations
    (w_trace (ls_world (train Toy.agent Toy.args Toy.evaluator Toy.lr_scheduler
                          Toy.world).1))
  = [1%nat].
Proof.
  split; [exact toy_config_ok|].
  pose proof (evaluations_are_numbered Toy.agent Toy.args Toy.evaluator Toy.lr_scheduler
                Toy.world toy_config_ok) as Hev.
  cbn zeta in Hev. rewrite toy_train_breaks in Hev. exact Hev.
Defined.

Lemma dumps_follow_dump_interval_witness :
  config_ok Toy.agent Toy.args /\
  dumps
    (w_trace (ls_world (train Toy.agent Toy.args Toy.evaluator Toy.lr_scheduler
                          Toy.world).1))
  = [].
Proof.
  split; [exact toy_config_ok|].
  pose proof (dumps_follow_dump_interval Toy.agent Toy.args Toy.evaluator Toy.lr_scheduler
                Toy.world toy_config_ok) as Hd.
  cbn zeta in Hd. rewrite toy_train_breaks in Hd. exact Hd.
Defined.

End ExtraInstances.
